(** * Shallow embedding of the wallet synchronisation core of chia-blockchain

  Sources embedded:
  - [src/chia/util/limited_semaphore.py]: [LimitedSemaphore.create] and
    [LimitedSemaphore.acquire];
  - [src/chia/wallet/wallet_node.py]: [add_state_to_race_cache], the
    race-cache replay and the early returns of [new_peak_wallet],
    [wallet_short_sync_backtrack], [validate_received_state_from_peer],
    [fetch_and_validate_the_weight_proof], the two updates of
    [finished_sync_up_to], [subscribe_to_phs] and
    [subscribe_to_coin_updates].

  External collaborators (the peer connection, the wallet state manager,
  the weight-proof handler, [filter_coin_states], ...) are taken as
  parameters: their answers are inputs of the embedded functions. *)

From Stdlib Require Import ZArith Lia.
From stdpp Require Import base gmap list.

Open Scope Z_scope.

(* ------------------------------------------------------------------ *)
(** ** LimitedSemaphore (src/chia/util/limited_semaphore.py) *)

Module LimitedSemaphore.

(** Tasks are identified by a number; [TaskInfo] keeps the
    [acquired_time] taken at entry. *)
Definition task := nat.

Record TaskInfo := mkTaskInfo { ti_task : task; acquired_time : Z }.

(** The dataclass fields that [acquire] reads and writes.  The
    [asyncio.Semaphore] is represented by its counter [_value]. *)
Record LimitedSemaphore := mkLS {
  _available_count : Z;
  _semaphore_value : Z;
  _active_tasks : gmap task TaskInfo
}.

(** [create]: [asyncio.Semaphore(active_limit)] raises [ValueError] on a
    negative value; otherwise the counter starts at
    [active_limit + waiting_limit] and [_active_tasks] is empty. *)
Definition create (active_limit waiting_limit : Z) : option LimitedSemaphore :=
  if decide (active_limit < 0) then None
  else Some (mkLS (active_limit + waiting_limit) active_limit ∅).

Inductive AcquireError := LimitedSemaphoreFullError.

(** Where an entrant of [acquire] stands: [Waiting] on
    [async with self._semaphore], or [Active] inside the guarded
    section (after [self._active_tasks[task] = TaskInfo(task=task)]). *)
Inductive phase := Waiting | Active.

#[global] Instance phase_eq_dec : EqDecision phase.
Proof. solve_decision. Defined.

(** The semaphore together with the entrants whose [acquire] context is
    open (the [try] block has been entered and the [finally] has not yet
    run), in order of entry. *)
Record Sys := mkSys { sem : LimitedSemaphore; entrants : list (task * phase) }.

(** First half of [acquire], up to the [try]: the counter check and the
    decrement. *)
Definition acquire (t : task) (s : Sys) : AcquireError + Sys :=
  let ls := sem s in
  if decide (_available_count ls < 1) then inl LimitedSemaphoreFullError
  else inr (mkSys (mkLS (_available_count ls - 1) (_semaphore_value ls) (_active_tasks ls))
                  (entrants s ++ [(t, Waiting)])).

(** [async with self._semaphore] succeeds for entrant [i] (the semaphore
    counter is positive), then the task is registered in
    [_active_tasks] (overwriting an entry of the same task). *)
Definition grant (i : nat) (now : Z) (s : Sys) : option Sys :=
  let ls := sem s in
  match entrants s !! i with
  | Some (t, Waiting) =>
      if decide (1 <= _semaphore_value ls) then
        Some (mkSys (mkLS (_available_count ls) (_semaphore_value ls - 1)
                          (<[t := mkTaskInfo t now]> (_active_tasks ls)))
                    (<[i := (t, Active)]> (entrants s)))
      else None
  | _ => None
  end.

(** Leaving entrant [i] on any exit path (normal exit, exception raised in
    the guarded section, cancellation while waiting or while active): the
    [async with self._semaphore] releases the semaphore if it was
    acquired, and the [finally] increments the counter and pops the task
    from [_active_tasks]. *)
Definition leave (i : nat) (s : Sys) : option Sys :=
  let ls := sem s in
  match entrants s !! i with
  | Some (t, ph) =>
      let v := match ph with Active => _semaphore_value ls + 1 | Waiting => _semaphore_value ls end in
      Some (mkSys (mkLS (_available_count ls + 1) v (delete t (_active_tasks ls)))
                  (take i (entrants s) ++ drop (S i) (entrants s)))
  | None => None
  end.

(** Number of outstanding entrants (active plus waiting). *)
Definition outstanding (s : Sys) : Z := Z.of_nat (length (entrants s)).

Definition init (ls : LimitedSemaphore) : Sys := mkSys ls [].

(** Number of entrants inside the guarded section. *)
Definition active_entrants (s : Sys) : nat :=
  length (filter (fun e => e.2 = Active) (entrants s)).

(** States reachable from a freshly created semaphore. *)
Inductive reachable (al wl : Z) : Sys -> Prop :=
| reach_init ls : create al wl = Some ls -> reachable al wl (init ls)
| reach_acquire s t s' : reachable al wl s -> acquire t s = inr s' -> reachable al wl s'
| reach_grant s i now s' : reachable al wl s -> grant i now s = Some s' -> reachable al wl s'
| reach_leave s i s' : reachable al wl s -> leave i s = Some s' -> reachable al wl s'.

(** One balanced use by task [t]: acquire, enter the guarded section,
    exit (normally or by an exception: the same [finally] runs). *)
Definition balanced_pair (t : task) (now : Z) (s : Sys) : option Sys :=
  match acquire t s with
  | inl _ => None
  | inr s1 =>
      let i := length (entrants s) in
      match grant i now s1 with
      | Some s2 => leave i s2
      | None => None
      end
  end.

End LimitedSemaphore.

(* ------------------------------------------------------------------ *)
(** ** Wire types (chia.types) used by the wallet node *)

Module Types.

(** Hashes ([bytes32]) are numbers; heights ([uint32]) are [Z], since
    the source subtracts them as Python integers. *)
Record Coin := mkCoin { parent_coin_info : Z; puzzle_hash : Z; amount : Z }.

Record CoinState := mkCoinState {
  coin : Coin;
  spent_height : option Z;
  created_height : option Z
}.

Definition coin_state_tuple (c : CoinState) : Z * Z * Z * option Z * option Z :=
  (parent_coin_info (coin c), puzzle_hash (coin c), amount (coin c),
   spent_height c, created_height c).

Definition coin_state_of_tuple (t : Z * Z * Z * option Z * option Z) : CoinState :=
  let '(p, ph, a, sh, ch) := t in mkCoinState (mkCoin p ph a) sh ch.

(** [HeaderBlock], reduced to the fields the wallet node reads:
    [reward_chain_block.height] and [.weight], [header_hash],
    [prev_header_hash] and the optional [foliage_transaction_block]. *)
Record FoliageTransactionBlock := mkFTB {
  additions_root : Z;
  removals_root : Z;
  timestamp : Z
}.

Record HeaderBlock := mkHB {
  height : Z;
  weight : Z;
  header_hash : Z;
  prev_header_hash : Z;
  foliage_transaction_block : option FoliageTransactionBlock
}.

(** The [Exception]s the embedded code can raise. *)
Inductive Exn :=
| AssertionError
| RuntimeError
| ValueError
| IndexError
| KeyError
| AttributeError.

#[global] Instance coin_eq_dec : EqDecision Coin.
Proof. solve_decision. Defined.

#[global] Instance coin_state_eq_dec : EqDecision CoinState.
Proof. solve_decision. Defined.

#[global] Program Instance coin_state_countable : Countable CoinState :=
  inj_countable' coin_state_tuple coin_state_of_tuple _.
Next Obligation. intros [[p ph a] sh ch]. reflexivity. Qed.

End Types.

(* ------------------------------------------------------------------ *)
(** ** Race cache (wallet_node.py, [add_state_to_race_cache] and the
  replay at the end of the short-sync branch of [new_peak_wallet]) *)

Module RaceCache.
Import Types.

(** [self.race_cache : Dict[bytes32, Set[CoinState]]] and
    [self.race_cache_hashes : List[Tuple[uint32, bytes32]]]. *)
Record RC := mkRC {
  race_cache : gmap Z (gset CoinState);
  race_cache_hashes : list (Z * Z)
}.

Definition empty_rc : RC := mkRC ∅ [].

Definition delete_threshold : Z := 100.

(** The [for] loop: [self.race_cache.pop(rc_hh)] for every listed entry
    with [height - delete_threshold >= rc_height]; [pop] without a
    default raises [KeyError] on a missing key ([None] here). *)
Fixpoint evict (height : Z) (hashes : list (Z * Z)) (m : gmap Z (gset CoinState))
    : option (gmap Z (gset CoinState)) :=
  match hashes with
  | [] => Some m
  | (rc_height, rc_hh) :: rest =>
      if decide (height - delete_threshold >= rc_height) then
        match m !! rc_hh with
        | Some _ => evict height rest (delete rc_hh m)
        | None => None
        end
      else evict height rest m
  end.

(** [add_state_to_race_cache(header_hash, height, coin_state)]. *)
Definition add_state_to_race_cache (header_hash height : Z) (cs : CoinState) (st : RC)
    : option RC :=
  match evict height (race_cache_hashes st) (race_cache st) with
  | None => None
  | Some m =>
      let hashes := filter (fun e => height - delete_threshold < e.1) (race_cache_hashes st) in
      let m1 := match m !! header_hash with
                | Some _ => m
                | None => <[header_hash := ∅]> m
                end in
      let set := default ∅ (m1 !! header_hash) in
      Some (mkRC (<[header_hash := {[ cs ]} ∪ set]> m1) hashes)
  end.

(** Successive calls [add_state_to_race_cache(header_hash, height, coin_state)]. *)
Fixpoint add_states (calls : list (Z * Z * CoinState)) (st : RC) : option RC :=
  match calls with
  | [] => Some st
  | (header_hash, height, cs) :: rest =>
      match add_state_to_race_cache header_hash height cs st with
      | Some st' => add_states rest st'
      | None => None
      end
  end.

(** Effect of [receive_state_from_peer(items, peer, fork_height, height,
    header_hash)] on the race cache: every item goes through
    [add_state_to_race_cache] when a [header_hash] is given, and the
    race cache is untouched otherwise. *)
Fixpoint add_items (header_hash height : Z) (items : list CoinState) (st : RC) : option RC :=
  match items with
  | [] => Some st
  | cs :: rest =>
      match add_state_to_race_cache header_hash height cs st with
      | Some st' => add_items header_hash height rest st'
      | None => None
      end
  end.

Definition receive_state_race (hdr : option (Z * Z)) (items : list CoinState) (st : RC)
    : option RC :=
  match hdr with
  | None => Some st
  | Some (header_hash, height) => add_items header_hash height items st
  end.

(** The replay loop of [new_peak_wallet]:
    [for potential_height in range(backtrack_fork_height + 1, peak.height + 1)]
    look the block hash up, and if it is in the race cache call
    [receive_state_from_peer(list(self.race_cache[header_hash]), peer)]
    (no [height], no [header_hash]).  Returns the batches passed to
    [receive_state_from_peer] and the race cache afterwards. *)
Fixpoint replay_loop (height_to_hash : Z -> Z) (heights : list Z) (st : RC)
    : option (list (list CoinState) * RC) :=
  match heights with
  | [] => Some ([], st)
  | h :: rest =>
      let hh := height_to_hash h in
      match race_cache st !! hh with
      | Some set =>
          let batch := elements set in
          match receive_state_race None batch st with
          | Some st' =>
              match replay_loop height_to_hash rest st' with
              | Some (bs, st'') => Some (batch :: bs, st'')
              | None => None
              end
          | None => None
          end
      | None => replay_loop height_to_hash rest st
      end
  end.

Definition replay_race_cache (height_to_hash : Z -> Z) (backtrack_fork_height peak_height : Z)
    (st : RC) : option (list (list CoinState) * RC) :=
  replay_loop height_to_hash
    (seqZ (backtrack_fork_height + 1) (peak_height - backtrack_fork_height)) st.

End RaceCache.

(* ------------------------------------------------------------------ *)
(** ** The early returns of [new_peak_wallet] (wallet_node.py) *)

Module NewPeak.
Import Types.

(** [wallet_protocol.NewPeakWallet]. *)
Record NewPeakWallet := mkNPW {
  np_header_hash : Z;
  np_height : Z;
  np_weight : Z;
  np_fork_point_with_previous_peak : Z
}.

(** How a call of [new_peak_wallet] ends its prefix: returned because
    the peak is lighter than the local one, returned because the wallet
    logged out while waiting for the lock, or carried on with the
    processing of the peak (peer-synced probe, header fetch, sync). *)
Inductive outcome := Ignored | LoggedOut | Processed.

(** [peak_hb is not None and peak.weight < peak_hb.weight]. *)
Definition lighter_than_local (peak_hb : option HeaderBlock) (peak : NewPeakWallet) : bool :=
  match peak_hb with
  | Some hb => bool_decide (np_weight peak < weight hb)
  | None => false
  end.

(** The prefix of [new_peak_wallet] up to the peer-synced probe:
    record the peer's peak in [self._node_peaks], compare with the local
    peak block, take [_new_peak_lock_low_priority], read the local peak
    block again ([peak_hb_locked], which may have advanced while waiting)
    and compare again, then check that [self.wallet_state_manager] is
    still set.  Returns the outcome and the new [_node_peaks]; nothing
    else is written before the peer-synced probe. *)
Definition new_peak_wallet_prefix (peer_node_id : Z) (peak : NewPeakWallet)
    (peak_hb peak_hb_locked : option HeaderBlock) (wsm_set_after_lock : bool)
    (node_peaks : gmap Z (Z * Z)) : outcome * gmap Z (Z * Z) :=
  let node_peaks' := <[peer_node_id := (np_height peak, np_header_hash peak)]> node_peaks in
  if lighter_than_local peak_hb peak then (Ignored, node_peaks')
  else if lighter_than_local peak_hb_locked peak then (Ignored, node_peaks')
  else if negb wsm_set_after_lock then (LoggedOut, node_peaks')
  else (Processed, node_peaks').

End NewPeak.

(* ------------------------------------------------------------------ *)
(** ** [wallet_short_sync_backtrack] (wallet_node.py) *)

Module Backtrack.
Import Types.

(** What the wallet blockchain answers: [contains_block(hash)],
    [get_peak_height()] and [get_peak_block()]. *)
Record LocalChain := mkLocalChain {
  contains_block : Z -> bool;
  get_peak_height : Z;
  get_peak_block : option HeaderBlock
}.

(** Calls made on the wallet and the request caches, in order. *)
Inductive effect :=
| ReorgRollback (h : Z)
| UpdateUI
| RollbackRequestCaches (h : Z)
| ReceiveBlock (b : HeaderBlock).

Inductive ReceiveBlockResult := NEW_PEAK | ADDED_AS_ORPHAN | INVALID_BLOCK | ALREADY_HAVE_BLOCK.

(** The [while] loop: fetch [top.height - 1] from the peer while
    [top.prev_header_hash] is unknown and [top.height > 0]; each fetched
    header is appended to [blocks] and sets [fork_height] to its height
    minus one.  [fuel] bounds the number of iterations ([None] when it
    runs out); a peer answering [None] raises [RuntimeError]. *)
Fixpoint backtrack_loop (fuel : nat) (chain : LocalChain)
    (request_block_header : Z -> option HeaderBlock)
    (top : HeaderBlock) (blocks : list HeaderBlock) (fork_height : Z)
    : option (Exn + (list HeaderBlock * Z)) :=
  if negb (contains_block chain (prev_header_hash top)) && bool_decide (height top > 0) then
    match fuel with
    | O => None
    | S fuel' =>
        match request_block_header (height top - 1) with
        | None => Some (inl RuntimeError)
        | Some prev_head =>
            backtrack_loop fuel' chain request_block_header prev_head
              (blocks ++ [prev_head]) (height prev_head - 1)
        end
    end
  else Some (inr (blocks, fork_height)).

(** The final loop: [receive_block] on every block in ascending order,
    raising [ValueError] on [INVALID_BLOCK]. *)
Fixpoint receive_blocks (receive_block : HeaderBlock -> ReceiveBlockResult)
    (blocks : list HeaderBlock) : list effect * option Exn :=
  match blocks with
  | [] => ([], None)
  | b :: rest =>
      match receive_block b with
      | INVALID_BLOCK => ([ReceiveBlock b], Some ValueError)
      | _ => let '(effs, e) := receive_blocks receive_block rest in (ReceiveBlock b :: effs, e)
      end
  end.

(** [wallet_short_sync_backtrack(header_block, peer)]: the result
    ([fork_height] or the exception) and the effects performed. *)
Definition wallet_short_sync_backtrack (fuel : nat) (chain : LocalChain)
    (request_block_header : Z -> option HeaderBlock)
    (receive_block : HeaderBlock -> ReceiveBlockResult)
    (header_block : HeaderBlock) : option ((Exn + Z) * list effect) :=
  let peak := get_peak_block chain in
  let fork0 := if contains_block chain (prev_header_hash header_block)
               then height header_block - 1 else 0 in
  match backtrack_loop fuel chain request_block_header header_block [header_block] fork0 with
  | None => None
  | Some (inl e) => Some (inl e, [])
  | Some (inr (blocks, fork_height)) =>
      let blocks := reverse blocks in
      let effs := (if bool_decide (fork_height < get_peak_height chain)
                   then [ReorgRollback fork_height; UpdateUI] else [])
                  ++ [RollbackRequestCaches fork_height] in
      let weight_ok := match peak with
                       | Some p => bool_decide (weight header_block >= weight p)
                       | None => true
                       end in
      if negb weight_ok then Some (inl AssertionError, effs)
      else
        let '(reffs, err) := receive_blocks receive_block blocks in
        match err with
        | Some e => Some (inl e, effs ++ reffs)
        | None => Some (inr fork_height, effs ++ reffs)
        end
  end.

Definition is_receive_block (e : effect) : bool :=
  match e with ReceiveBlock _ => true | _ => false end.

Definition receive_block_count (effs : list effect) : nat :=
  length (List.filter is_receive_block effs).

End Backtrack.

(* ------------------------------------------------------------------ *)
(** ** [validate_received_state_from_peer] (wallet_node.py) *)

Module Validator.
Import Types.

(** [WalletCoinRecord]: a [spent_block_height] of 0 means unspent. *)
Record CoinRecord := mkCoinRecord {
  confirmed_block_height : Z;
  spent_block_height : Z
}.

(** The answers of the collaborators: [can_use_peer_request_cache],
    the wallet coin store, the peer's [request_header_blocks],
    [request_and_validate_additions] / [_removals], the hash functions
    and [validate_block_inclusion] (whose answer is taken as given
    here). *)
Record Env := mkEnv {
  can_use_peer_request_cache : bool;
  get_coin_record : Z -> option CoinRecord;
  request_header_blocks : Z -> Z -> option (list HeaderBlock);
  request_and_validate_additions : Z -> Z -> Z -> Z -> bool;
  request_and_validate_removals : Z -> Z -> Z -> Z -> bool;
  validate_block_inclusion : HeaderBlock -> bool;
  coin_name : Coin -> Z;
  coin_state_hash : CoinState -> Z
}.

(** Observable calls, logged in order. *)
Inductive event :=
| RequestHeaderBlocks (lo hi : Z)
| AdditionsChecked (result : bool)
| RemovalsChecked (result : bool)
| PeerClose (code : Z).

#[global] Instance event_eq_dec : EqDecision event.
Proof. solve_decision. Defined.

(** [PeerRequestCache.blocks] and [.states_validated], and the log. *)
Record St := mkSt {
  blocks : gmap Z HeaderBlock;
  states_validated : gmap Z CoinState;
  log : list event
}.

(** A state and exception monad: Python keeps the writes made before
    an exception. *)
Definition M (A : Type) := St -> (Exn + A) * St.

Definition ret {A} (a : A) : M A := fun st => (inr a, st).
Definition raise {A} (e : Exn) : M A := fun st => (inl e, st).
Definition bind {A B} (m : M A) (k : A -> M B) : M B :=
  fun st => match m st with
            | (inl e, st') => (inl e, st')
            | (inr a, st') => k a st'
            end.

Notation "x <- m ;; k" := (bind m (fun x => k)) (at level 100, m at next level, right associativity).
Notation "m ;;; k" := (bind m (fun _ => k)) (at level 100, right associativity).

Definition get : M St := fun st => (inr st, st).
Definition emit (e : event) : M unit :=
  fun st => (inr tt, mkSt (blocks st) (states_validated st) (log st ++ [e])).
Definition cache_block (h : Z) (b : HeaderBlock) : M unit :=
  fun st => (inr tt, mkSt (<[h := b]> (blocks st)) (states_validated st) (log st)).
Definition record_validated (k : Z) (cs : CoinState) : M unit :=
  fun st => (inr tt, mkSt (blocks st) (<[k := cs]> (states_validated st)) (log st)).
Definition assert (b : bool) : M unit := if b then ret tt else raise AssertionError.

(** [res = await peer.request_header_blocks(RequestHeaderBlocks(h, h))]
    followed by [res.header_blocks[0]]: [None] has no attribute
    [header_blocks], an empty list raises [IndexError]. *)
Definition fetch_header (env : Env) (h : Z) : M HeaderBlock :=
  emit (RequestHeaderBlocks h h) ;;;
  match request_header_blocks env h h with
  | None => raise AttributeError
  | Some [] => raise IndexError
  | Some (b :: _) => ret b
  end.

Definition ftb_of (b : HeaderBlock) : M FoliageTransactionBlock :=
  match foliage_transaction_block b with
  | Some f => ret f
  | None => raise AssertionError
  end.

(** The removal proof for a spent block, then its inclusion. *)
Definition check_removal (env : Env) (cs : CoinState) (h : Z) (sb : HeaderBlock) : M bool :=
  f <- ftb_of sb ;;
  let r := request_and_validate_removals env h (header_hash sb) (coin_name env (coin cs))
             (removals_root f) in
  emit (RemovalsChecked r) ;;;
  if negb r then emit (PeerClose 9999) ;;; ret false
  else ret (validate_block_inclusion env sb).

Definition validate_received_state_from_peer (env : Env) (cs : CoinState)
    : M bool :=
  if can_use_peer_request_cache env then ret true else
  let spent_height := spent_height cs in
  let current := get_coin_record env (coin_name env (coin cs)) in
  let current_spent_height :=
    match current with
    | Some c => if decide (spent_block_height c = 0) then None else Some (spent_block_height c)
    | None => None
    end in
  let same_as_current :=
    match current with
    | Some c => bool_decide (current_spent_height = spent_height)
                && bool_decide (Some (confirmed_block_height c) = created_height cs)
    | None => false
    end in
  if same_as_current then ret true else
  let '(reorg_mode, confirmed_height) :=
    match current, created_height cs with
    | Some c, None => (true, Some (confirmed_block_height c))
    | _, ch => (false, ch)
    end in
  match confirmed_height with
  | None => ret false
  | Some ch =>
    st <- get ;;
    state_block <-
      (match blocks st !! ch with
       | Some b => if reorg_mode then
                     (b' <- fetch_header env ch ;; cache_block ch b' ;;; ret b')
                   else ret b
       | None => b' <- fetch_header env ch ;; cache_block ch b' ;;; ret b'
       end) ;;
    f <- ftb_of state_block ;;
    let add_ok := request_and_validate_additions env (height state_block)
                    (header_hash state_block) (puzzle_hash (coin cs)) (additions_root f) in
    emit (AdditionsChecked add_ok) ;;;
    if negb add_ok then emit (PeerClose 9999) ;;; ret false else
    if negb (validate_block_inclusion env state_block) then ret false else
    (* the peer says that a coin known to be spent is unspent *)
    ok1 <-
      (match spent_height, current with
       | None, Some c =>
           if decide (spent_block_height c = 0) then ret true else
           (* [current.spent_block_height != spent_height] holds: [reorg_mode = True];
              [spent_height in peer_request_cache.blocks] is [None in ...], false *)
           sb <- fetch_header env (spent_block_height c) ;;
           assert (bool_decide (height sb = spent_block_height c)) ;;;
           cache_block (spent_block_height c) sb ;;;
           check_removal env cs (spent_block_height c) sb
       | _, _ => ret true
       end) ;;
    if negb ok1 then ret false else
    ok2 <-
      (match spent_height with
       | Some sh =>
           st2 <- get ;;
           sb <- (match blocks st2 !! sh with
                  | Some b => ret b
                  | None => b <- fetch_header env sh ;;
                            assert (bool_decide (height b = sh)) ;;;
                            cache_block sh b ;;; ret b
                  end) ;;
           check_removal env cs (height sb) sb
       | None => ret true
       end) ;;
    if negb ok2 then ret false else
    record_validated (coin_state_hash env cs) cs ;;;
    ret true
  end.

End Validator.

(* ------------------------------------------------------------------ *)
(** ** [fetch_and_validate_the_weight_proof] (wallet_node.py) *)

Module WeightProofGate.
Import Types.

(** [WeightProof]: its [get_hash()] and its [recent_chain_data] (only
    the [reward_chain_block] height and weight of each entry are read). *)
Record WeightProof := mkWP {
  wp_hash : Z;
  recent_chain_data : list (Z * Z)
}.

(** [(valid, fork_point, summaries, block_records)]; summaries and
    block records are opaque. *)
Definition Validation := (bool * Z * list Z * list Z)%type.

(** [self.valid_wp_cache] and the number of calls made so far to the
    external [weight_proof_handler.validate_weight_proof]. *)
Record St := mkSt {
  valid_wp_cache : gmap Z Validation;
  validator_calls : nat
}.

Definition Result := (bool * option WeightProof * list Z * list Z)%type.

(** [fetch_and_validate_the_weight_proof(peer, peak)]: [response] is
    what [peer.request_proof_of_weight] returned, [validate_weight_proof]
    the external validator.  [recent_chain_data[-1]] of an empty list
    raises [IndexError]. *)
Definition fetch_and_validate_the_weight_proof
    (validate_weight_proof : WeightProof -> Validation)
    (response : option WeightProof) (peak : HeaderBlock) (st : St)
    : (Exn + Result) * St :=
  match response with
  | None => (inr (false, None, [], []), st)
  | Some wp =>
      match last (recent_chain_data wp) with
      | None => (inl IndexError, st)
      | Some (h, w) =>
          if bool_decide (h <> height peak) then (inr (false, None, [], []), st)
          else if bool_decide (w <> weight peak) then (inr (false, None, [], []), st)
          else
            match valid_wp_cache st !! wp_hash wp with
            | Some (valid, fork_point, summaries, block_records) =>
                (inr (valid, Some wp, summaries, block_records), st)
            | None =>
                let '(valid, fork_point, summaries, block_records) := validate_weight_proof wp in
                let calls := S (validator_calls st) in
                let cache := if valid
                             then <[wp_hash wp := (valid, fork_point, summaries, block_records)]>
                                    (valid_wp_cache st)
                             else valid_wp_cache st in
                (inr (valid, Some wp, summaries, block_records), mkSt cache calls)
            end
      end
  end.

(** The peak-match test of the function: [recent_chain_data[-1]] has
    the height and the weight of the claimed peak header. *)
Definition matches_peak (wp : WeightProof) (peak : HeaderBlock) : Prop :=
  last (recent_chain_data wp) = Some (height peak, weight peak).

End WeightProofGate.

(* ------------------------------------------------------------------ *)
(** ** Updates of [finished_sync_up_to] (wallet_node.py) *)

Module FinishedSync.

(** End of [long_sync]:
    [if target_height > get_finished_sync_up_to(): set_finished_sync_up_to(target_height)]. *)
Definition long_sync_finish (target_height fsu : Z) : Z :=
  if decide (target_height > fsu) then target_height else fsu.

(** End of [new_peak_wallet]:
    [if peer.peer_node_id in self.synced_peers and peak.height > get_finished_sync_up_to(): ...]. *)
Definition new_peak_finish (peer_in_synced_peers : bool) (peak_height fsu : Z) : Z :=
  if peer_in_synced_peers && bool_decide (peak_height > fsu) then peak_height else fsu.

(** The two call sites, as a sequence of writes. *)
Inductive update :=
| LongSyncEnd (target_height : Z)
| NewPeakEnd (peer_in_synced_peers : bool) (peak_height : Z).

Definition apply_update (u : update) (fsu : Z) : Z :=
  match u with
  | LongSyncEnd t => long_sync_finish t fsu
  | NewPeakEnd b h => new_peak_finish b h fsu
  end.

(** The successive values of [finished_sync_up_to], starting with [fsu]. *)
Fixpoint trace (us : list update) (fsu : Z) : list Z :=
  match us with
  | [] => [fsu]
  | u :: rest => fsu :: trace rest (apply_update u fsu)
  end.

End FinishedSync.

(* ------------------------------------------------------------------ *)
(** ** [subscribe_to_phs] and [subscribe_to_coin_updates] (wallet_node.py) *)

Module Subscribe.
Import Types.

(** The shared body of both functions after the request: [response]
    is the peer's [RespondToPhUpdates] / [RespondToCoinUpdates]
    ([coin_states]), [syncing] is [Optional[bool]], [filter_coin_states]
    is the external filter.  The node's [wallet_state_manager] is set
    (the leading assertion of [subscribe_to_phs] holds). *)
Definition final_coin_state (filter_coin_states : list CoinState -> Z -> list CoinState)
    (trusted : bool) (syncing : option bool) (fork_height : option Z)
    (response : option (list CoinState)) : Exn + list CoinState :=
  match response with
  | None => inr []
  | Some coin_states =>
      if negb trusted && (match syncing with Some false => true | _ => false end) then
        match fork_height with
        | None => inl AssertionError
        | Some f => inr (filter_coin_states coin_states f)
        end
      else inr coin_states
  end.

(** [subscribe_to_phs(puzzle_hashes, peer, syncing, min_height, fork_height)]:
    [register_interest_in_puzzle_hash(RegisterForPhUpdates(puzzle_hashes, min_height))]
    answers [None] or the coin states. *)
Definition subscribe_to_phs (filter_coin_states : list CoinState -> Z -> list CoinState)
    (register_interest_in_puzzle_hash : list Z -> Z -> option (list CoinState))
    (trusted : bool) (puzzle_hashes : list Z) (syncing : option bool) (min_height : Z)
    (fork_height : option Z) : Exn + list CoinState :=
  final_coin_state filter_coin_states trusted syncing fork_height
    (register_interest_in_puzzle_hash puzzle_hashes min_height).

(** [subscribe_to_coin_updates(coin_names, peer, syncing, min_height, fork_height)]. *)
Definition subscribe_to_coin_updates (filter_coin_states : list CoinState -> Z -> list CoinState)
    (register_interest_in_coin : list Z -> Z -> option (list CoinState))
    (trusted : bool) (coin_names : list Z) (syncing : option bool) (min_height : Z)
    (fork_height : option Z) : Exn + list CoinState :=
  final_coin_state filter_coin_states trusted syncing fork_height
    (register_interest_in_coin coin_names min_height).

End Subscribe.

(* ------------------------------------------------------------------ *)
(** ** [get_timestamp_for_height] (wallet_node.py) *)

Module Timestamp.
Import Types.

(** The loop over [self.untrusted_caches.values()]: the first cache
    holding a block at [height] with a [foliage_transaction_block]
    answers with its [timestamp] (a [uint64], never [None]). *)
Fixpoint find_cached_timestamp (height : Z) (caches : list (gmap Z HeaderBlock)) : option Z :=
  match caches with
  | [] => None
  | c :: rest =>
      match c !! height with
      | Some block =>
          match foliage_transaction_block block with
          | Some f => Some (timestamp f)
          | None => find_cached_timestamp height rest
          end
      | None => find_cached_timestamp height rest
      end
  end.

(** [get_timestamp_for_height(height)] on [self.height_to_time]:
    [caches] are the [blocks] of the untrusted peer caches in iteration
    order, [peer_available] says whether [get_full_node_peer()] found a
    connection and [last_tx_block] is what [fetch_last_tx_from_peer]
    answered.  Reading [.timestamp] of a missing
    [foliage_transaction_block] raises [AttributeError]. *)
Definition get_timestamp_for_height (height : Z) (caches : list (gmap Z HeaderBlock))
    (peer_available : bool) (last_tx_block : option HeaderBlock) (height_to_time : gmap Z Z)
    : (Exn + Z) * gmap Z Z :=
  match height_to_time !! height with
  | Some t => (inr t, height_to_time)
  | None =>
      match find_cached_timestamp height caches with
      | Some t => (inr t, <[height := t]> height_to_time)
      | None =>
          if negb peer_available then (inl ValueError, height_to_time)
          else match last_tx_block with
               | None => (inl ValueError, height_to_time)
               | Some b =>
                   match foliage_transaction_block b with
                   | Some f => (inr (timestamp f), height_to_time)
                   | None => (inl AttributeError, height_to_time)
                   end
               end
      end
  end.

End Timestamp.

(* ------------------------------------------------------------------ *)
(** ** Re-sending pending transactions: [_messages_to_resend],
    [on_connect] and [_resend_queue] (wallet_node.py) *)

Module Resend.

(** [TransactionRecord]: the spend bundle (identifying the
    [send_transaction] message built from it) and the [sent_to] entries
    [(peer, status)], the peer already decoded by [bytes32.from_hexstr]. *)
Record TransactionRecord := mkTR {
  spend_bundle : option Z;
  sent_to : list (Z * Z)
}.

(** [MempoolInclusionStatus.SUCCESS.value]. *)
Definition SUCCESS : Z := 1.

(** [_messages_to_resend()]: for every record not yet sent that has a
    spend bundle, the message and the peers that accepted it. *)
Definition _messages_to_resend (wsm_set _shut_down : bool) (records : list TransactionRecord)
    : list (Z * list Z) :=
  if negb wsm_set || _shut_down then []
  else omap (fun r => match spend_bundle r with
                      | None => None
                      | Some sb => Some (sb, map fst (filter (fun e => e.2 = SUCCESS) (sent_to r)))
                      end) records.

Inductive conn_effect :=
| ClosePeer
| StateChangedAddConnection
| SendMessage (msg : Z)
| WalletPeersOnConnect.

(** [on_connect(peer)]: [version_ok] is
    [Version(peer.protocol_version) >= Version("0.0.33")].  Closing the
    peer does not return.  Returns the calls made and the new
    [synced_peers]. *)
Definition on_connect (wsm_set _shut_down version_ok trusted local_node_synced wallet_peers_set : bool)
    (peer_node_id : Z) (records : list TransactionRecord) (synced_peers : gset Z)
    : list conn_effect * gset Z :=
  if negb wsm_set then ([], synced_peers) else
  let e1 := if negb version_ok then [ClosePeer] else [] in
  let e2 := if negb trusted && local_node_synced then [ClosePeer] else [] in
  let synced' := if bool_decide (peer_node_id ∈ synced_peers)
                 then synced_peers ∖ {[peer_node_id]} else synced_peers in
  let sends := omap (fun '(msg, peer_ids) =>
                       if bool_decide (peer_node_id ∈ peer_ids) then None else Some (SendMessage msg))
                    (_messages_to_resend wsm_set _shut_down records) in
  (e1 ++ e2 ++ [StateChangedAddConnection] ++ sends ++
     (if wallet_peers_set then [WalletPeersOnConnect] else []), synced').

Inductive send := SendTo (peer : Z) (msg : Z) | SendToAll (msg : Z).

(** [_resend_queue()]: every pending message goes to the connected full
    nodes that have not accepted it, then the action messages go to all
    full nodes.  The flags are not changed while it runs. *)
Definition _resend_queue (_shut_down server_set wsm_set : bool) (records : list TransactionRecord)
    (full_nodes : list Z) (action_messages : list Z) : list send :=
  if _shut_down || negb server_set || negb wsm_set then [] else
  List.flat_map (fun '(msg, sent_peers) =>
                   omap (fun p => if bool_decide (p ∈ sent_peers) then None else Some (SendTo p msg))
                        full_nodes)
                (_messages_to_resend wsm_set _shut_down records)
  ++ map SendToAll action_messages.

End Resend.

(* ------------------------------------------------------------------ *)
(** ** Per-peer state: [get_cache_for_peer] and [on_disconnect]
    (wallet_node.py) *)

Module PeerState.
Import Types.

(** The parts of a [PeerRequestCache] the wallet node touches. *)
Record PeerRequestCache := mkPRC {
  prc_blocks : gmap Z HeaderBlock;
  prc_states_validated : gmap Z CoinState
}.

Definition new_cache : PeerRequestCache := mkPRC ∅ ∅.

Record Node := mkNode {
  untrusted_caches : gmap Z PeerRequestCache;
  synced_peers : gset Z;
  _node_peaks : gmap Z (Z * Z);
  local_node_synced : bool
}.

(** [get_cache_for_peer(peer)]. *)
Definition get_cache_for_peer (peer_node_id : Z) (n : Node) : PeerRequestCache * Node :=
  match untrusted_caches n !! peer_node_id with
  | Some c => (c, n)
  | None => (new_cache, mkNode (<[peer_node_id := new_cache]> (untrusted_caches n))
                               (synced_peers n) (_node_peaks n) (local_node_synced n))
  end.

(** [on_disconnect(peer)]. *)
Definition on_disconnect (trusted : bool) (peer_node_id : Z) (n : Node) : Node :=
  let lns := if trusted then false else local_node_synced n in
  let caches := if bool_decide (is_Some (untrusted_caches n !! peer_node_id))
                then delete peer_node_id (untrusted_caches n) else untrusted_caches n in
  let synced := if bool_decide (peer_node_id ∈ synced_peers n)
                then synced_peers n ∖ {[peer_node_id]} else synced_peers n in
  let peaks := if bool_decide (is_Some (_node_peaks n !! peer_node_id))
               then delete peer_node_id (_node_peaks n) else _node_peaks n in
  mkNode caches synced peaks lns.

End PeerState.

(* ------------------------------------------------------------------ *)
(** ** [fetch_children] and [get_coin_state] (wallet_node.py) *)

Module Children.
Import Types Validator.

(** The loop [for state in response.coin_states: valid = await
    self.validate_received_state_from_peer(...); if valid:
    validated.append(state)] on one peer request cache.  [env_for s] is
    what the collaborators answer while [s] is validated. *)
Fixpoint validate_all (env_for : CoinState -> Env) (states : list CoinState) : M (list CoinState) :=
  match states with
  | [] => ret []
  | s :: rest =>
      valid <- validate_received_state_from_peer (env_for s) s ;;
      validated <- validate_all env_for rest ;;
      ret (if valid then s :: validated else validated)
  end.

(** [fetch_children(peer, coin_name, fork_height)]: [response] is the
    peer's [RespondChildren] (or [None]). *)
Definition fetch_children (trusted : bool) (env_for : CoinState -> Env)
    (response : option (list CoinState)) : M (list CoinState) :=
  match response with
  | None => raise ValueError
  | Some coin_states => if trusted then ret coin_states else validate_all env_for coin_states
  end.

(** [get_coin_state(coin_names, fork_height)] on the first full node. *)
Definition get_coin_state (connected trusted : bool) (env_for : CoinState -> Env)
    (response : option (list CoinState)) : M (list CoinState) :=
  if negb connected then raise ValueError else
  match response with
  | None => raise AssertionError
  | Some coin_states => if trusted then ret coin_states else validate_all env_for coin_states
  end.

End Children.

(* ------------------------------------------------------------------ *)
(** ** [long_sync] (wallet_node.py) *)

Module LongSync.
Import Types.

Inductive effect :=
| ReorgRollback (h : Z)
| RollbackRequestCaches (h : Z)
| UpdateUI
| GetPuzzleHashes
| RegisterPhs (puzzle_hashes : list Z) (min_height : Z)
| ReceiveState (items : list CoinState)
| CreateMorePuzzleHashes
| GetCoinIds (min_height : Z)
| RegisterCoins (coin_names : list Z) (min_height : Z)
| SetFinishedSyncUpTo (h : Z)
| SetLocalNodeSynced
| StateChangedNewBlock
| AddSyncedPeer.

(** The answers of the collaborators of [long_sync]: the n-th call of
    [get_puzzle_hashes_to_subscribe] and [get_coin_ids_to_subscribe], the
    peer's answers to the two registrations, [filter_coin_states],
    [chunks(_, 1000)] (from [chia.full_node.weight_proof]), and
    [get_finished_sync_up_to()] at the start and at the end. *)
Record Ctx := mkCtx {
  trusted : bool;
  puzzle_hashes_at : nat -> list Z;
  coin_ids_at : nat -> list Z;
  register_interest_in_puzzle_hash : list Z -> Z -> option (list CoinState);
  register_interest_in_coin : list Z -> Z -> option (list CoinState);
  filter_coin_states : list CoinState -> Z -> list CoinState;
  chunks1000 : list Z -> list (list Z);
  finished_sync_up_to_start : Z;
  finished_sync_up_to_end : Z
}.

Section Loops.
Variable ctx : Ctx.
Variable syncing : bool.
Variable min_height : Z.
Variable fork_height : option Z.

(** [for chunk in ph_chunks]: subscribe to the chunk's puzzle hashes not
    yet checked, hand the answer to [receive_state_from_peer], then mark
    the whole chunk as checked.  Returns the calls and the checked set. *)
Fixpoint ph_chunk_loop (chunks : list (list Z)) (checked : list Z) : list effect * (Exn + list Z) :=
  match chunks with
  | [] => ([], inr checked)
  | chunk :: rest =>
      let req := filter (fun p => p ∉ checked) chunk in
      match Subscribe.subscribe_to_phs (filter_coin_states ctx) (register_interest_in_puzzle_hash ctx)
              (trusted ctx) req (Some syncing) min_height fork_height with
      | inl e => ([RegisterPhs req min_height], inl e)
      | inr res =>
          let '(effs, r) := ph_chunk_loop rest (checked ++ chunk) in
          (RegisterPhs req min_height :: ReceiveState res :: effs, r)
      end
  end.

(** [while continue_while:] over puzzle hashes ([continue_while] starts
    [True]); [n] counts the calls of [get_puzzle_hashes_to_subscribe]
    made so far, [fuel] bounds the iterations. *)
Fixpoint ph_loop (fuel : nat) (n : nat) (all_puzzle_hashes checked : list Z)
    : option (list effect * (Exn + list Z)) :=
  match fuel with
  | O => None
  | S fuel' =>
      let '(effs1, r) := ph_chunk_loop (chunks1000 ctx all_puzzle_hashes) checked in
      match r with
      | inl e => Some (effs1, inl e)
      | inr checked' =>
          let all' := puzzle_hashes_at ctx (S n) in
          let effs2 := effs1 ++ [CreateMorePuzzleHashes; GetPuzzleHashes] in
          if existsb (fun ph => bool_decide (ph ∉ checked')) all' then
            match ph_loop fuel' (S n) all' checked' with
            | None => None
            | Some (effs3, r3) => Some (effs2 ++ effs3, r3)
            end
          else Some (effs2, inr checked')
      end
  end.

(** [for chunk in one_k_chunks] of the coin-id loop. *)
Fixpoint coin_chunk_loop (chunks : list (list Z)) (checked : list Z) : list effect * (Exn + list Z) :=
  match chunks with
  | [] => ([], inr checked)
  | chunk :: rest =>
      match Subscribe.subscribe_to_coin_updates (filter_coin_states ctx) (register_interest_in_coin ctx)
              (trusted ctx) chunk (Some syncing) min_height fork_height with
      | inl e => ([RegisterCoins chunk min_height], inl e)
      | inr res =>
          let '(effs, r) := coin_chunk_loop rest (checked ++ chunk) in
          (RegisterCoins chunk min_height :: ReceiveState res :: effs, r)
      end
  end.

(** [while continue_while:] over coin ids. *)
Fixpoint coin_loop (fuel : nat) (n : nat) (continue_while : bool) (all_coin_ids checked : list Z)
    : option (list effect * (Exn + list Z)) :=
  if continue_while then
    match fuel with
    | O => None
    | S fuel' =>
        let '(effs1, r) := coin_chunk_loop (chunks1000 ctx all_coin_ids) checked in
        match r with
        | inl e => Some (effs1, inl e)
        | inr checked' =>
            let all' := coin_ids_at ctx (S n) in
            let cont := existsb (fun c => bool_decide (c ∉ checked')) all' in
            match coin_loop fuel' (S n) cont all' checked' with
            | None => None
            | Some (effs3, r3) => Some (effs1 ++ [GetCoinIds min_height] ++ effs3, r3)
            end
        end
    end
  else Some ([], inr checked).

End Loops.

(** [long_sync(target_height, full_node, syncing, fork_height)]: the calls
    made and whether it ended normally or with an exception. *)
Definition long_sync (fuel : nat) (ctx : Ctx) (target_height : Z) (syncing : bool)
    (fork_height : option Z) : option (list effect * (Exn + unit)) :=
  let min_height := Z.max 0 (finished_sync_up_to_start ctx - 32) in
  let pre := (if syncing then [ReorgRollback min_height; RollbackRequestCaches min_height; UpdateUI]
              else []) ++ [GetPuzzleHashes] in
  match ph_loop ctx syncing min_height fork_height fuel O (puzzle_hashes_at ctx O) [] with
  | None => None
  | Some (effs1, inl e) => Some (pre ++ effs1, inl e)
  | Some (effs1, inr _) =>
      let pre2 := pre ++ effs1 ++ [GetCoinIds min_height] in
      (* [continue_while = False] right before the coin-id loop *)
      match coin_loop ctx syncing min_height fork_height fuel O false (coin_ids_at ctx O) [] with
      | None => None
      | Some (effs2, inl e) => Some (pre2 ++ effs2, inl e)
      | Some (effs2, inr _) =>
          let fin := if bool_decide (target_height > finished_sync_up_to_end ctx)
                     then [SetFinishedSyncUpTo target_height] else [] in
          Some (pre2 ++ effs2 ++ fin ++ (if trusted ctx then [SetLocalNodeSynced] else [])
                ++ [StateChangedNewBlock; AddSyncedPeer; UpdateUI], inr tt)
      end
  end.

(** The puzzle-hash lists of the [RegisterForPhUpdates] requests made. *)
Fixpoint ph_requests (effs : list effect) : list (list Z) :=
  match effs with
  | [] => []
  | RegisterPhs phs _ :: rest => phs :: ph_requests rest
  | _ :: rest => ph_requests rest
  end.

Definition is_register_coins (e : effect) : bool :=
  match e with RegisterCoins _ _ => true | _ => false end.

Definition is_get_puzzle_hashes (e : effect) : bool :=
  match e with GetPuzzleHashes => true | _ => false end.

End LongSync.

(* ------------------------------------------------------------------ *)
(** ** The untrusted weight-proof sync branch of [new_peak_wallet]
    (wallet_node.py) *)

Module WeightProofSync.
Import Types WeightProofGate.

Inductive effect :=
| SetSyncMode (b : bool)
| ClosePeer
| NewWeightProof (wp : WeightProof)
| LongSync (syncing : bool) (fork_point : Z)
| ShortSync.

(** The answers of the awaited calls inside the [try]: the weight-proof
    fetch (its result or the exception it raises), the blockchain's
    [synced_weight_proof] before and after [long_sync],
    [get_fork_point], and whether [new_weight_proof] and [long_sync]
    raise. *)
Record Ctx := mkCtx {
  fetch_result : Exn + Result;
  old_proof : option WeightProof;
  get_fork_point : WeightProof -> WeightProof -> Exn + Z;
  new_weight_proof_raises : option Exn;
  long_sync_raises : option Exn;
  synced_after : option WeightProof;
  second_new_weight_proof_raises : option Exn
}.

(** [except Exception:] — leave sync mode if it was set, close the peer,
    return. *)
Definition on_exception (syncing : bool) : list effect :=
  (if syncing then [SetSyncMode false] else []) ++ [ClosePeer].

(** The [try] body after [fetch_and_validate_the_weight_proof] returned:
    the calls made, and [true] when the body ran to its end ([false]
    when it returned early or an exception was caught). *)
Definition after_fetch (ctx : Ctx) (syncing : bool) (r : Result) : list effect * bool :=
  let '(valid_weight_proof, weight_proof, _, _) := r in
  if negb valid_weight_proof then (on_exception syncing, false) else
  match weight_proof with
  | None => (on_exception syncing, false)
  | Some wp =>
      let fp := match old_proof ctx with
                | None => inr 0
                | Some op => get_fork_point ctx op wp
                end in
      match fp with
      | inl _ => (on_exception syncing, false)
      | inr fork_point =>
          match new_weight_proof_raises ctx with
          | Some _ => (NewWeightProof wp :: on_exception syncing, false)
          | None =>
              let e1 := [NewWeightProof wp; LongSync syncing fork_point] in
              match long_sync_raises ctx with
              | Some _ => (e1 ++ on_exception syncing, false)
              | None =>
                  let replace :=
                    match synced_after ctx with
                    | None => inr true
                    | Some sp =>
                        match last (recent_chain_data wp), last (recent_chain_data sp) with
                        | Some (_, w), Some (_, w') => inr (bool_decide (w > w'))
                        | _, _ => inl IndexError
                        end
                    end in
                  match replace with
                  | inl _ => (e1 ++ on_exception syncing, false)
                  | inr false => (e1 ++ (if syncing then [SetSyncMode false] else []), true)
                  | inr true =>
                      match second_new_weight_proof_raises ctx with
                      | Some _ => (e1 ++ [NewWeightProof wp] ++ on_exception syncing, false)
                      | None => (e1 ++ [NewWeightProof wp] ++ (if syncing then [SetSyncMode false] else []), true)
                      end
                  end
              end
          end
      end
  end.

(** The [else] branch of the trusted test in [new_peak_wallet], from
    [far_behind] on: the calls made.  [synced] is
    [peer.peer_node_id in self.synced_peers], [no_synced_peers] is
    [len(self.synced_peers) == 0]. *)
Definition untrusted_branch (ctx : Ctx) (peak_height local_peak_height : Z)
    (WEIGHT_PROOF_RECENT_BLOCKS : Z) (synced no_synced_peers : bool) : list effect :=
  let far_behind := bool_decide (peak_height - local_peak_height > 200) in
  if (negb synced || far_behind) && bool_decide (peak_height >= WEIGHT_PROOF_RECENT_BLOCKS) then
    let syncing := far_behind || no_synced_peers in
    (if syncing then [SetSyncMode true] else []) ++
    match fetch_result ctx with
    | inl _ => on_exception syncing
    | inr r => (after_fetch ctx syncing r).1
    end
  else [ShortSync].

Definition is_set_sync_mode (e : effect) : bool :=
  match e with SetSyncMode _ => true | _ => false end.

End WeightProofSync.

(* ================================================================== *)
(** * Properties *)

(* ------------------------------------------------------------------ *)
(** ** LimitedSemaphore *)

Module LimitedSemaphoreFacts.
Import LimitedSemaphore.

Lemma leave_length (i : nat) (l : list (task * phase)) e :
  l !! i = Some e -> length (take i l ++ drop (S i) l) = (length l - 1)%nat.
Proof.
  intros Hi. apply lookup_lt_Some in Hi.
  rewrite length_app, length_take, length_drop. lia.
Qed.

(** The counter is the total capacity minus the outstanding entrants,
    and never goes below zero. *)
Lemma reachable_counter (al wl : Z) (s : Sys) :
  0 <= wl -> reachable al wl s ->
  _available_count (sem s) = al + wl - outstanding s /\ 0 <= _available_count (sem s).
Proof.
  intros Hwl Hr. unfold outstanding.
  induction Hr as [ls Hc | s t s' Hr IH Ha | s i now s' Hr IH Hg | s i s' Hr IH Hl].
  - unfold create in Hc. case_decide; [discriminate|].
    injection Hc as <-. simpl. lia.
  - unfold acquire in Ha. case_decide; [discriminate|].
    injection Ha as <-. simpl. rewrite length_app. simpl. lia.
  - unfold grant in Hg. destruct (entrants s !! i) as [[t [|]]|] eqn:E; try discriminate.
    case_decide; [|discriminate]. injection Hg as <-. simpl.
    rewrite length_insert. lia.
  - unfold leave in Hl. destruct (entrants s !! i) as [[t ph]|] eqn:E; [|discriminate].
    injection Hl as <-. simpl. rewrite (leave_length _ _ _ E).
    apply lookup_lt_Some in E. lia.
Qed.

Lemma outstanding_nonneg (s : Sys) : 0 <= outstanding s.
Proof. unfold outstanding. lia. Qed.

(** A balanced acquire / enter / exit by one task restores everything
    but removes the task from [_active_tasks]. *)
Lemma balanced_pair_effect (t : task) (now : Z) (s s' : Sys) :
  balanced_pair t now s = Some s' ->
  s' = mkSys (mkLS (_available_count (sem s)) (_semaphore_value (sem s))
                   (delete t (_active_tasks (sem s))))
             (entrants s).
Proof.
  destruct s as [[a v m] l]. unfold balanced_pair, acquire. simpl.
  case_decide; [discriminate|].
  unfold grant. simpl. rewrite (list_lookup_middle l [] (t, Waiting)) by reflexivity.
  case_decide; [|discriminate].
  unfold leave. simpl.
  rewrite insert_app_r_alt by lia. rewrite Nat.sub_diag. simpl.
  rewrite (list_lookup_middle l [] (t, Active)) by reflexivity.
  intros Hs. injection Hs as <-.
  rewrite take_app_length, drop_app_ge by lia.
  rewrite delete_insert_eq.
  replace (S (length l) - length l)%nat with 1%nat by lia. simpl.
  rewrite app_nil_r. f_equal. f_equal; lia.
Qed.

(** [C4] (as amended) For non-negative limits, in every state reachable
    from [create active_limit waiting_limit], [acquire] raises
    [LimitedSemaphoreFullError] exactly when the number of outstanding
    entrants equals [active_limit + waiting_limit]; and after any entrant
    leaves, the next [acquire] succeeds.  With [active_limit = 2] and
    [waiting_limit = 1], three outstanding entrants make a fourth acquire
    fail at once. *)
Theorem limited_semaphore_acquire_full (al wl : Z) (s : Sys) (t : task) :
  0 <= wl -> reachable al wl s ->
  (acquire t s = inl LimitedSemaphoreFullError <-> outstanding s = al + wl) /\
  (forall i s', leave i s = Some s' -> exists s'', acquire t s' = inr s'').
Proof.
  intros Hwl Hr. destruct (reachable_counter al wl s Hwl Hr) as [Hc Hnn].
  split.
  - unfold acquire. case_decide.
    + split; [intros _; lia | reflexivity].
    + split; [discriminate | lia].
  - intros i s' Hl. unfold leave in Hl.
    destruct (entrants s !! i) as [[t' ph]|]; [|discriminate].
    injection Hl as <-. unfold acquire. simpl. case_decide; [lia|]. eexists. reflexivity.
Qed.

(** [C4] witness: three entrants of [create 2 1] make the fourth acquire
    fail; after the first one leaves, acquiring succeeds. *)
Lemma limited_semaphore_acquire_full_witness :
  let s3 := mkSys (mkLS 0 2 ∅) [(1%nat, Waiting); (2%nat, Waiting); (3%nat, Waiting)] in
  acquire 4%nat s3 = inl LimitedSemaphoreFullError /\
  exists s', leave 0 s3 = Some s' /\ exists s'', acquire 4%nat s' = inr s''.
Proof.
  intros s3.
  assert (Hr : reachable 2 1 s3).
  { apply (reach_acquire 2 1 (mkSys (mkLS 1 2 ∅) [(1%nat, Waiting); (2%nat, Waiting)]) 3%nat);
      [|reflexivity].
    apply (reach_acquire 2 1 (mkSys (mkLS 2 2 ∅) [(1%nat, Waiting)]) 2%nat); [|reflexivity].
    apply (reach_acquire 2 1 (init (mkLS 3 2 ∅)) 1%nat); [|reflexivity].
    apply reach_init. reflexivity. }
  destruct (limited_semaphore_acquire_full 2 1 s3 4%nat ltac:(lia) Hr) as [Hiff Hleave].
  split.
  - apply Hiff. reflexivity.
  - eexists. split; [reflexivity|]. apply (Hleave 0%nat). reflexivity.
Defined.

(** [C4] counterexample: with a negative [waiting_limit] the counter
    starts below zero, so [acquire] fails with no entrant outstanding
    although [active_limit + waiting_limit = -1]. *)
Lemma limited_semaphore_acquire_full_counterexample :
  exists ls, create 1 (-2) = Some ls /\
    acquire 0%nat (init ls) = inl LimitedSemaphoreFullError /\
    outstanding (init ls) <> 1 + -2.
Proof. eexists. split; [reflexivity|]. split; [reflexivity|]. unfold outstanding. simpl. lia. Qed.

(** [C9] (as amended) For non-negative limits, every reachable state has
    [0 <= _available_count <= active_limit + waiting_limit]; every exit
    of an entrant (normal, by exception or by cancellation) adds exactly
    one to [_available_count] and leaves its task out of
    [_active_tasks]; a balanced acquire/exit pair restores
    [_available_count], the semaphore and the entrants, and removes its
    task from [_active_tasks], so that it restores the whole state when
    the task was not already in [_active_tasks]. *)
Theorem limited_semaphore_counter_invariant (al wl : Z) (s : Sys) :
  0 <= wl -> reachable al wl s ->
  (0 <= _available_count (sem s) <= al + wl) /\
  (forall i t ph s', entrants s !! i = Some (t, ph) -> leave i s = Some s' ->
     _available_count (sem s') = _available_count (sem s) + 1 /\
     _active_tasks (sem s') !! t = None) /\
  (forall t now s', balanced_pair t now s = Some s' ->
     _available_count (sem s') = _available_count (sem s) /\
     _semaphore_value (sem s') = _semaphore_value (sem s) /\
     entrants s' = entrants s /\
     _active_tasks (sem s') = delete t (_active_tasks (sem s)) /\
     (_active_tasks (sem s) !! t = None -> s' = s)).
Proof.
  intros Hwl Hr. destruct (reachable_counter al wl s Hwl Hr) as [Hc Hnn].
  pose proof (outstanding_nonneg s).
  split; [lia|]. split.
  - intros i t ph s' He Hl. unfold leave in Hl. rewrite He in Hl.
    injection Hl as <-. simpl. split; [reflexivity|]. apply lookup_delete_eq.
  - intros t now s' Hb. apply balanced_pair_effect in Hb. subst s'. simpl.
    split; [reflexivity|]. split; [reflexivity|]. split; [reflexivity|].
    split; [reflexivity|].
    intros Hn. rewrite (delete_id _ _ Hn). destruct s as [[a v m] l]. reflexivity.
Qed.

(** [C9] witness: from [create 2 1], task 1 runs a balanced pair and the
    state comes back unchanged. *)
Lemma limited_semaphore_counter_invariant_witness :
  let s0 := init (mkLS 3 2 ∅) in
  (0 <= _available_count (sem s0) <= 2 + 1) /\
  balanced_pair 1%nat 7 s0 = Some s0.
Proof.
  intros s0.
  assert (Hr : reachable 2 1 s0) by (apply reach_init; reflexivity).
  destruct (limited_semaphore_counter_invariant 2 1 s0 ltac:(lia) Hr) as [Hb [_ Hp]].
  split; [exact Hb|].
  destruct (balanced_pair 1%nat 7 s0) as [s'|] eqn:E.
  - f_equal. apply (Hp 1%nat 7 s' E). reflexivity.
  - discriminate.
Defined.

(** [C9] counterexample: a task already inside the guarded section
    acquires again (re-entrance, which [acquire] only logs) and exits:
    the balanced inner pair pops the task's entry, so the state differs
    from the one before the pair.  And [create 1 (-2)] starts with a
    negative [_available_count]. *)
Lemma limited_semaphore_counter_invariant_counterexample :
  let s1 := mkSys (mkLS 2 1 {[ 1%nat := mkTaskInfo 1%nat 5 ]}) [(1%nat, Active)] in
  reachable 2 1 s1 /\
  (exists s2, balanced_pair 1%nat 6 s1 = Some s2 /\ s2 <> s1) /\
  (exists ls, create 1 (-2) = Some ls /\ _available_count ls < 0).
Proof.
  intros s1. split; [|split].
  - apply (reach_grant 2 1 (mkSys (mkLS 2 2 ∅) [(1%nat, Waiting)]) 0%nat 5); [|reflexivity].
    apply (reach_acquire 2 1 (init (mkLS 3 2 ∅)) 1%nat); [|reflexivity].
    apply reach_init. reflexivity.
  - eexists. split; [reflexivity|]. intros Heq.
    apply (f_equal (fun s => _active_tasks (sem s) !! 1%nat)) in Heq.
    vm_compute in Heq. discriminate.
  - eexists. split; [reflexivity|]. simpl. lia.
Qed.


Lemma active_split (l : list (task * phase)) (i : nat) (e : task * phase) :
  l !! i = Some e ->
  length (filter (fun e => e.2 = Active) l) =
    (length (filter (fun e => e.2 = Active) (take i l ++ drop (S i) l)) +
     match e.2 with Active => 1 | Waiting => 0 end)%nat.
Proof.
  intros Hi. rewrite <- (take_drop_middle l i e Hi) at 1.
  rewrite !filter_app, filter_cons, !length_app.
  destruct e as [t []]; simpl; try case_decide; try discriminate; simpl; lia.
Qed.

(** [X9] In every reachable state the [asyncio.Semaphore] counter is
    [active_limit] minus the number of entrants inside the guarded
    section, so at most [active_limit] entrants are inside at once; and
    every entry of [_active_tasks] is the [TaskInfo] of its own task,
    which has an entrant inside. *)
Theorem limited_semaphore_active_bound (al wl : Z) (s : Sys) :
  reachable al wl s ->
  _semaphore_value (sem s) = al - Z.of_nat (active_entrants s) /\
  0 <= _semaphore_value (sem s) /\
  Z.of_nat (active_entrants s) <= al /\
  (forall t ti, _active_tasks (sem s) !! t = Some ti -> ti_task ti = t /\ (t, Active) ∈ entrants s).
Proof.
  unfold active_entrants.
  induction 1 as [ls Hc | s t s' Hr IH Ha | s i now s' Hr IH Hg | s i s' Hr IH Hl].
  - unfold create in Hc. case_decide; [discriminate|].
    injection Hc as <-. simpl. split; [lia|]. split; [lia|]. split; [lia|].
    intros t ti Ht. rewrite lookup_empty in Ht. discriminate.
  - unfold acquire in Ha. case_decide; [discriminate|].
    injection Ha as <-. simpl. rewrite filter_app, filter_cons. simpl.
    rewrite filter_nil, app_nil_r.
    destruct IH as (IH1 & IH2 & IH3 & IH4). split; [lia|]. split; [lia|]. split; [lia|].
    intros t' ti Ht. destruct (IH4 t' ti Ht) as [? ?]. split; [assumption|].
    apply elem_of_app. auto.
  - unfold grant in Hg. destruct (entrants s !! i) as [[t [|]]|] eqn:E; try discriminate.
    case_decide; [|discriminate]. injection Hg as <-. simpl.
    destruct IH as (IH1 & IH2 & IH3 & IH4).
    assert (Hlt : (i < length (entrants s))%nat) by (apply lookup_lt_Some in E; exact E).
    pose proof (active_split (entrants s) i _ E) as Hs1.
    pose proof (active_split (<[i := (t, Active)]> (entrants s)) i (t, Active)
                  ltac:(apply list_lookup_insert_eq; exact Hlt)) as Hs2.
    rewrite take_insert_ge, drop_insert_lt in Hs2 by lia.
    simpl in Hs1, Hs2.
    split; [lia|]. split; [lia|]. split; [lia|].
    intros t' ti Ht. destruct (decide (t' = t)) as [->|Hne].
    + rewrite lookup_insert_eq in Ht. injection Ht as <-. split; [reflexivity|].
      apply list_elem_of_lookup_2 with i. apply list_lookup_insert_eq. exact Hlt.
    + rewrite lookup_insert_ne in Ht by congruence.
      destruct (IH4 t' ti Ht) as [Hti Hin]. split; [exact Hti|].
      apply list_elem_of_lookup_1 in Hin as [j Hj].
      apply list_elem_of_lookup_2 with j.
      rewrite list_lookup_insert_ne; [exact Hj|]. intros ->. congruence.
  - unfold leave in Hl. destruct (entrants s !! i) as [[t ph]|] eqn:E; [|discriminate].
    injection Hl as <-. simpl.
    destruct IH as (IH1 & IH2 & IH3 & IH4).
    pose proof (active_split (entrants s) i _ E) as Hs1. simpl in Hs1.
    split; [destruct ph; lia|].
    split; [destruct ph; lia|].
    split; [destruct ph; lia|].
    intros t' ti Ht. destruct (decide (t' = t)) as [->|Hne].
    + rewrite lookup_delete_eq in Ht. discriminate.
    + rewrite lookup_delete_ne in Ht by congruence.
      destruct (IH4 t' ti Ht) as [Hti Hin]. split; [exact Hti|].
      rewrite <- (take_drop_middle _ _ _ E) in Hin.
      apply elem_of_app in Hin as [Hin|Hin]; apply elem_of_app; [auto|].
      apply elem_of_cons in Hin as [Hin|Hin]; [injection Hin as -> _; congruence|auto].
Qed.

Lemma limited_semaphore_active_bound_witness :
  let s1 := mkSys (mkLS 2 1 {[ 1%nat := mkTaskInfo 1%nat 5 ]}) [(1%nat, Active)] in
  reachable 2 1 s1 /\
  _semaphore_value (sem s1) = 2 - Z.of_nat (active_entrants s1) /\
  0 <= _semaphore_value (sem s1) /\
  Z.of_nat (active_entrants s1) <= 2 /\
  (forall t ti, _active_tasks (sem s1) !! t = Some ti -> ti_task ti = t /\ (t, Active) ∈ entrants s1).
Proof.
  intros s1.
  assert (Hr : reachable 2 1 s1).
  { apply (reach_grant 2 1 (mkSys (mkLS 2 2 ∅) [(1%nat, Waiting)]) 0%nat 5); [|reflexivity].
    apply (reach_acquire 2 1 (init (mkLS 3 2 ∅)) 1%nat); [|reflexivity].
    apply reach_init. reflexivity. }
  split; [exact Hr|]. exact (limited_semaphore_active_bound 2 1 s1 Hr).
Defined.

End LimitedSemaphoreFacts.

(* ------------------------------------------------------------------ *)
(** ** Race cache *)

Module RaceCacheFacts.
Import Types RaceCache.

(** Nothing in [add_state_to_race_cache] appends to
    [race_cache_hashes]: started empty, the list stays empty and no
    key of the race cache is ever popped. *)
Lemma add_keeps_hashes_empty (header_hash height : Z) (cs : CoinState) (st : RC) :
  race_cache_hashes st = [] ->
  exists st', add_state_to_race_cache header_hash height cs st = Some st' /\
    race_cache_hashes st' = [] /\
    (forall k, is_Some (race_cache st !! k) -> is_Some (race_cache st' !! k)) /\
    race_cache st' !! header_hash = Some ({[ cs ]} ∪ default ∅ (race_cache st !! header_hash)).
Proof.
  destruct st as [m l]. simpl. intros ->.
  unfold add_state_to_race_cache. simpl. eexists. split; [reflexivity|].
  split; [reflexivity|]. split.
  - intros k Hk. simpl. rewrite lookup_insert.
    case_decide; [eauto|].
    destruct (m !! header_hash); [exact Hk|]. rewrite lookup_insert. case_decide; [eauto|exact Hk].
  - simpl. rewrite lookup_insert_eq.
    destruct (m !! header_hash) eqn:E; simpl; rewrite ?E, ?lookup_insert_eq; reflexivity.
Qed.

(** [C5] (code_bug) The four inserts of the spec's scenario, at heights
    10, 100, 150 and 260 under four different block hashes: after the
    insert at 260 the entries of heights 10, 100 and 150 are all still in
    the race cache, and [race_cache_hashes] is still empty. *)
Theorem race_cache_no_eviction_at_260 :
  let cs (n : Z) := mkCoinState (mkCoin n n 1) None (Some n) in
  match add_states [(1, 10, cs 10); (2, 100, cs 100); (3, 150, cs 150); (4, 260, cs 260)]
          empty_rc with
  | Some st =>
      bool_decide (race_cache_hashes st = []) &&
      bool_decide (race_cache st !! 1 = Some {[ cs 10 ]}) &&
      bool_decide (race_cache st !! 2 = Some {[ cs 100 ]}) &&
      bool_decide (race_cache st !! 3 = Some {[ cs 150 ]}) &&
      bool_decide (race_cache st !! 4 = Some {[ cs 260 ]})
  | None => false
  end = true.
Proof. vm_compute. reflexivity. Qed.

Lemma receive_state_race_none (items : list CoinState) (st : RC) :
  receive_state_race None items st = Some st.
Proof. reflexivity. Qed.

(** [C6] (as amended) The replay loop passes to [receive_state_from_peer]
    exactly the coin states stored under the hash of each replayed
    height that is in the race cache, one batch per such height in
    height order, and leaves the race cache unchanged: the replayed
    hashes stay in it. *)
Theorem race_cache_replay_keeps_entries (height_to_hash : Z -> Z)
    (backtrack_fork_height peak_height : Z) (st : RC) :
  replay_race_cache height_to_hash backtrack_fork_height peak_height st =
    Some (omap (fun h => elements <$> race_cache st !! height_to_hash h)
               (seqZ (backtrack_fork_height + 1) (peak_height - backtrack_fork_height)),
          st).
Proof.
  unfold replay_race_cache.
  generalize (seqZ (backtrack_fork_height + 1) (peak_height - backtrack_fork_height)).
  intros hs. induction hs as [|h hs IH]; simpl; [reflexivity|].
  destruct (race_cache st !! height_to_hash h) as [set|]; simpl.
  - rewrite IH. reflexivity.
  - exact IH.
Qed.

(** [C6] counterexample: a coin state stored under the hash of block 5
    is replayed for height 5, and the hash is still in the race cache
    afterwards. *)
Lemma race_cache_replay_counterexample :
  let cs := mkCoinState (mkCoin 1 2 3) None (Some 5) in
  let st := mkRC {[ 50 := {[ cs ]} ]} [] in
  replay_race_cache (fun h => h * 10) 4 5 st = Some ([[cs]], st) /\
  is_Some (race_cache st !! 50).
Proof. split; [vm_compute; reflexivity | simpl; eexists; reflexivity]. Qed.


Lemma add_state_empty_hashes (header_hash height : Z) (cs : CoinState) (m : gmap Z (gset CoinState)) :
  add_state_to_race_cache header_hash height cs (mkRC m []) =
    Some (mkRC (<[header_hash := {[ cs ]} ∪ default ∅ (m !! header_hash)]> m) []).
Proof.
  unfold add_state_to_race_cache. simpl.
  destruct (m !! header_hash) eqn:E; simpl; rewrite ?E; [reflexivity|].
  rewrite lookup_insert_eq, insert_insert_eq. reflexivity.
Qed.

(** [X10] Since nothing appends to [race_cache_hashes], every
    [receive_state_from_peer] call carrying a [header_hash] only adds
    its items to the set stored under that hash, whatever its [height]:
    no other key changes and nothing is ever evicted. *)
Theorem receive_state_race_accumulates (header_hash height : Z) (items : list CoinState) (st : RC) :
  race_cache_hashes st = [] ->
  receive_state_race (Some (header_hash, height)) items st =
    Some (mkRC (if bool_decide (items = []) then race_cache st
                else <[header_hash := list_to_set items ∪ default ∅ (race_cache st !! header_hash)]>
                       (race_cache st)) []).
Proof.
  destruct st as [m l]. cbn [race_cache_hashes race_cache]. intros ->. revert m.
  unfold receive_state_race.
  induction items as [|cs rest IH]; intros m; [reflexivity|].
  cbn [add_items]. rewrite add_state_empty_hashes, IH.
  rewrite (bool_decide_false (cs :: rest = [])) by discriminate.
  destruct (decide (rest = [])) as [->|Hne].
  - rewrite bool_decide_true by reflexivity. simpl. do 2 f_equal. f_equal. f_equal. set_solver.
  - rewrite bool_decide_false by exact Hne. rewrite lookup_insert_eq, insert_insert_eq. simpl.
    do 3 f_equal. set_solver.
Qed.

Lemma receive_state_race_accumulates_witness :
  let cs (n : Z) := mkCoinState (mkCoin n n 1) None (Some n) in
  race_cache_hashes (mkRC {[ 7 := {[ cs 1 ]} ]} []) = [] /\
  receive_state_race (Some (7, 500)) [cs 2; cs 3] (mkRC {[ 7 := {[ cs 1 ]} ]} []) =
    Some (mkRC (if bool_decide ([cs 2; cs 3] = []) then {[ 7 := {[ cs 1 ]} ]}
                else <[7 := list_to_set [cs 2; cs 3] ∪ default ∅ (({[ 7 := {[ cs 1 ]} ]} : gmap Z (gset CoinState)) !! 7)]>
                       {[ 7 := {[ cs 1 ]} ]}) []).
Proof.
  intros cs. split; [reflexivity|].
  exact (receive_state_race_accumulates 7 500 [cs 2; cs 3] (mkRC {[ 7 := {[ cs 1 ]} ]} []) eq_refl).
Defined.

End RaceCacheFacts.

(* ------------------------------------------------------------------ *)
(** ** The early returns of [new_peak_wallet] *)

Module NewPeakFacts.
Import Types NewPeak.

Lemma lighter_than_local_spec (peak_hb : option HeaderBlock) (peak : NewPeakWallet) :
  lighter_than_local peak_hb peak = true <->
  exists hb, peak_hb = Some hb /\ weight hb > np_weight peak.
Proof.
  unfold lighter_than_local. destruct peak_hb as [hb|].
  - rewrite bool_decide_eq_true. split.
    + intros H. exists hb. split; [reflexivity | lia].
    + intros [hb' [[= <-] H]]. lia.
  - split; [discriminate | intros [hb [H _]]; discriminate].
Qed.

(** [C1] (as amended) [new_peak_wallet] ignores the advertised peak
    exactly when the local peak block exists and is strictly heavier,
    at the first test or at the re-check made after taking the
    low-priority lock; in every case the only write made before this
    decision is the peer's [(height, header_hash)] in [_node_peaks]. *)
Theorem new_peak_wallet_ignore_rule (peer_node_id : Z) (peak : NewPeakWallet)
    (peak_hb peak_hb_locked : option HeaderBlock) (wsm_set_after_lock : bool)
    (node_peaks : gmap Z (Z * Z)) :
  let r := new_peak_wallet_prefix peer_node_id peak peak_hb peak_hb_locked
             wsm_set_after_lock node_peaks in
  r.2 = <[peer_node_id := (np_height peak, np_header_hash peak)]> node_peaks /\
  (r.1 = Ignored <->
     (exists hb, peak_hb = Some hb /\ weight hb > np_weight peak) \/
     (exists hb, peak_hb_locked = Some hb /\ weight hb > np_weight peak)).
Proof.
  simpl. unfold new_peak_wallet_prefix.
  rewrite <- !lighter_than_local_spec.
  destruct (lighter_than_local peak_hb peak), (lighter_than_local peak_hb_locked peak),
    wsm_set_after_lock; simpl; intuition congruence.
Qed.

(** [C1] counterexample: a local peak of the same weight as the
    advertised one does not make [new_peak_wallet] return; the peak is
    processed. *)
Lemma new_peak_wallet_equal_weight_counterexample :
  let local := mkHB 10 500 77 76 None in
  let peak := mkNPW 78 10 500 9 in
  (new_peak_wallet_prefix 1 peak (Some local) (Some local) true ∅).1 = Processed /\
  weight local >= np_weight peak.
Proof. split; [reflexivity | simpl; lia]. Qed.

End NewPeakFacts.

(* ------------------------------------------------------------------ *)
(** ** [wallet_short_sync_backtrack] *)

Module BacktrackFacts.
Import Types Backtrack.

Lemma receive_blocks_all_ok (recv : HeaderBlock -> ReceiveBlockResult) (bs : list HeaderBlock) :
  (forall b, recv b <> INVALID_BLOCK) ->
  receive_blocks recv bs = (map ReceiveBlock bs, None).
Proof.
  intros Hok. induction bs as [|b bs IH]; simpl; [reflexivity|].
  destruct (recv b) eqn:E; try (rewrite IH; reflexivity).
  exfalso. exact (Hok b E).
Qed.

(** Whenever the backtrack succeeds, the wallet is rolled back exactly
    when the fork height is below the local peak height. *)
Lemma backtrack_rollback_iff (fuel : nat) (chain : LocalChain) req recv hb
    (fork_height : Z) (effs : list effect) :
  wallet_short_sync_backtrack fuel chain req recv hb = Some (inr fork_height, effs) ->
  (ReorgRollback fork_height ∈ effs <-> fork_height < get_peak_height chain).
Proof.
  unfold wallet_short_sync_backtrack.
  destruct (backtrack_loop _ _ _ _ _ _) as [[e|[blocks fh]]|]; try discriminate.
  destruct (negb _); [discriminate|].
  destruct (receive_blocks recv (reverse blocks)) as [reffs [e|]] eqn:Er; [discriminate|].
  intros H. injection H as <- <-.
  assert (Hrec : forall bs r e, receive_blocks recv bs = (r, e) -> ReorgRollback fh ∉ r).
  { intros bs. induction bs as [|b bs IH]; intros r e Hb; simpl in Hb.
    - injection Hb as <- _. set_solver.
    - destruct (recv b); try (destruct (receive_blocks recv bs) as [r' e'] eqn:E';
        injection Hb as <- _; specialize (IH _ _ eq_refl); set_solver). }
  specialize (Hrec _ _ _ Er).
  case_bool_decide; simpl.
  - split; [intros _; assumption|]. intros _. set_solver.
  - split; [|lia]. intros Hin. exfalso. set_solver.
Qed.

(** [C2] (as amended) Local peak at height 100; the new peak header at
    103 and the fetched headers at 102, 101 and 100 all have unknown
    parents except the one at 100, whose parent (the block at 99) is
    known.  Then [wallet_short_sync_backtrack] returns [fork_height = 99],
    rolls the wallet back to 99 (99 is below the peak height 100), and
    calls [receive_block] four times: on the three fetched headers and
    on the new peak header, in ascending height order. *)
Theorem short_sync_backtrack_fork_99 (fuel : nat) (chain : LocalChain)
    (request_block_header : Z -> option HeaderBlock)
    (receive_block : HeaderBlock -> ReceiveBlockResult)
    (b100 b101 b102 hb : HeaderBlock) :
  (3 <= fuel)%nat ->
  height hb = 103 -> height b102 = 102 -> height b101 = 101 -> height b100 = 100 ->
  request_block_header 102 = Some b102 ->
  request_block_header 101 = Some b101 ->
  request_block_header 100 = Some b100 ->
  contains_block chain (prev_header_hash hb) = false ->
  contains_block chain (prev_header_hash b102) = false ->
  contains_block chain (prev_header_hash b101) = false ->
  contains_block chain (prev_header_hash b100) = true ->
  get_peak_height chain = 100 ->
  (forall p, get_peak_block chain = Some p -> weight p <= weight hb) ->
  (forall b, receive_block b <> INVALID_BLOCK) ->
  wallet_short_sync_backtrack fuel chain request_block_header receive_block hb =
    Some (inr 99, [ReorgRollback 99; UpdateUI; RollbackRequestCaches 99;
                   ReceiveBlock b100; ReceiveBlock b101; ReceiveBlock b102; ReceiveBlock hb]) /\
  receive_block_count [ReorgRollback 99; UpdateUI; RollbackRequestCaches 99;
                   ReceiveBlock b100; ReceiveBlock b101; ReceiveBlock b102; ReceiveBlock hb] = 4%nat.
Proof.
  intros Hf H103 H102 H101 H100 R102 R101 R100 Chb C102 C101 C100 Hpk Hw Hok.
  split; [|reflexivity].
  destruct fuel as [|[|[|fuel]]]; try lia.
  unfold wallet_short_sync_backtrack. rewrite Chb. cbn -[receive_blocks].
  rewrite Chb, H103. cbn -[receive_blocks]. replace (103 - 1) with 102 by lia. rewrite R102.
  rewrite C102, H102. cbn -[receive_blocks]. replace (102 - 1) with 101 by lia. rewrite R101.
  rewrite C101, H101. cbn -[receive_blocks]. replace (101 - 1) with 100 by lia. rewrite R100.
  assert (Hstop : forall f bs, backtrack_loop f chain request_block_header b100 bs (height b100 - 1)
                               = Some (inr (bs, height b100 - 1)))
    by (intros [|f] bs; simpl; rewrite C100; reflexivity).
  rewrite Hstop, H100.
  rewrite (bool_decide_true (103 > 0)), (bool_decide_true (102 > 0)),
    (bool_decide_true (101 > 0)) by lia.
  cbn -[receive_blocks]. rewrite Hpk.
  rewrite (bool_decide_true (100 - 1 < 100)) by lia.
  replace (100 - 1) with 99 by lia.
  destruct (get_peak_block chain) as [p|] eqn:Ep.
  - rewrite (bool_decide_true (weight hb >= weight p)) by (specialize (Hw p eq_refl); lia).
    cbn -[receive_blocks]. rewrite receive_blocks_all_ok by exact Hok. reflexivity.
  - cbn -[receive_blocks]. rewrite receive_blocks_all_ok by exact Hok. reflexivity.
Qed.

(** [C2] witness: block [h] of the new chain has hash [1000 + h]; the
    local chain knows every hash up to [1099] and its own block 100
    (hash [5100]). *)
Lemma short_sync_backtrack_fork_99_witness :
  let blk (h : Z) := mkHB h (10 * h) (1000 + h) (1000 + h - 1) None in
  let chain := mkLocalChain (fun x => bool_decide (x <= 1099) || bool_decide (x = 5100)) 100
                 (Some (mkHB 100 1000 5100 1099 None)) in
  wallet_short_sync_backtrack 3 chain (fun h => Some (blk h)) (fun _ => NEW_PEAK) (blk 103) =
    Some (inr 99, [ReorgRollback 99; UpdateUI; RollbackRequestCaches 99;
                   ReceiveBlock (blk 100); ReceiveBlock (blk 101); ReceiveBlock (blk 102);
                   ReceiveBlock (blk 103)]).
Proof.
  intros blk chain.
  apply (short_sync_backtrack_fork_99 3 chain (fun h => Some (blk h)) (fun _ => NEW_PEAK)
           (blk 100) (blk 101) (blk 102) (blk 103)); try reflexivity; try lia.
  - intros p Hp. injection Hp as <-. simpl. lia.
  - intros b. discriminate.
Defined.

(** [C2] counterexample: in that scenario [receive_block] is applied
    four times, not three. *)
Lemma short_sync_backtrack_counterexample :
  let blk (h : Z) := mkHB h (10 * h) (1000 + h) (1000 + h - 1) None in
  let chain := mkLocalChain (fun x => bool_decide (x <= 1099) || bool_decide (x = 5100)) 100
                 (Some (mkHB 100 1000 5100 1099 None)) in
  match wallet_short_sync_backtrack 10 chain (fun h => Some (blk h)) (fun _ => NEW_PEAK) (blk 103) with
  | Some (inr fork_height, effs) => fork_height = 99 /\ receive_block_count effs <> 3%nat
  | _ => False
  end.
Proof. vm_compute. split; [reflexivity | discriminate]. Qed.


(** Consecutive headers of the backtracked list: the upper one has an
    unknown parent and a positive height, and the lower one is the
    peer's answer for the height just below. *)
Fixpoint linked (chain : LocalChain) (req : Z -> option HeaderBlock) (l : list HeaderBlock) : Prop :=
  match l with
  | b :: ((b' :: _) as rest) =>
      (contains_block chain (prev_header_hash b) = false /\ height b > 0 /\
       req (height b - 1) = Some b') /\ linked chain req rest
  | _ => True
  end.

Lemma linked_lookup (chain : LocalChain) req (l : list HeaderBlock) (i : nat) (b b' : HeaderBlock) :
  linked chain req l -> l !! i = Some b -> l !! S i = Some b' ->
  contains_block chain (prev_header_hash b) = false /\ height b > 0 /\ req (height b - 1) = Some b'.
Proof.
  revert i. induction l as [|x l IH]; intros i Hl Hi Hi'; [discriminate|].
  destruct l as [|y l]; [destruct i; discriminate|].
  destruct Hl as [Hxy Hl]. destruct i as [|i].
  - simpl in Hi, Hi'. injection Hi as <-. injection Hi' as <-. exact Hxy.
  - exact (IH i Hl Hi Hi').
Qed.

Lemma backtrack_loop_ok (fuel : nat) (chain : LocalChain) req (top : HeaderBlock)
    (blocks : list HeaderBlock) (fork : Z) (blocks' : list HeaderBlock) (f : Z) :
  backtrack_loop fuel chain req top blocks fork = Some (inr (blocks', f)) ->
  exists ext, blocks' = blocks ++ ext /\ linked chain req (top :: ext) /\
    (forall b, last (top :: ext) = Some b ->
       contains_block chain (prev_header_hash b) = true \/ height b <= 0) /\
    f = match last ext with Some b => height b - 1 | None => fork end.
Proof.
  revert top blocks fork. induction fuel as [|fuel IH]; intros top blocks fork H.
  - simpl in H. destruct (negb _ && _) eqn:C; [discriminate|].
    injection H as <- <-. exists []. rewrite app_nil_r. split; [reflexivity|].
    split; [exact I|]. split; [|reflexivity].
    intros b Hb. injection Hb as <-.
    apply andb_false_iff in C as [C|C].
    + left. apply negb_false_iff in C. exact C.
    + right. apply bool_decide_eq_false in C. lia.
  - simpl in H. destruct (negb _ && _) eqn:C.
    + destruct (req (height top - 1)) as [prev|] eqn:Er; [|discriminate].
      destruct (IH _ _ _ H) as (ext & -> & Hl & Hlast & Hf).
      apply andb_true_iff in C as [C1 C2]. apply negb_true_iff in C1.
      apply bool_decide_eq_true in C2.
      exists (prev :: ext). split; [rewrite <- app_assoc; reflexivity|].
      split; [split; [auto|exact Hl]|]. split.
      * intros b Hb. apply Hlast. rewrite last_cons_cons in Hb. exact Hb.
      * rewrite Hf. destruct ext as [|x ext]; [reflexivity|].
        rewrite last_cons_cons, last_cons. rewrite last_cons in Hf.
        destruct (last ext); reflexivity.
    + injection H as <- <-. exists []. rewrite app_nil_r. split; [reflexivity|].
      split; [exact I|]. split; [|reflexivity].
      intros b Hb. injection Hb as <-.
      apply andb_false_iff in C as [C|C].
      * left. apply negb_false_iff in C. exact C.
      * right. apply bool_decide_eq_false in C. lia.
Qed.

Lemma backtrack_loop_err (fuel : nat) (chain : LocalChain) req (top : HeaderBlock)
    (blocks : list HeaderBlock) (fork : Z) (e : Exn) :
  backtrack_loop fuel chain req top blocks fork = Some (inl e) -> e = RuntimeError.
Proof.
  revert top blocks fork. induction fuel as [|fuel IH]; intros top blocks fork H; simpl in H;
    destruct (negb _ && _); try discriminate.
  destruct (req (height top - 1)); [exact (IH _ _ _ H)|]. injection H as <-. reflexivity.
Qed.

Lemma receive_blocks_spec (recv : HeaderBlock -> ReceiveBlockResult) (bs : list HeaderBlock)
    (reffs : list effect) (err : option Exn) :
  receive_blocks recv bs = (reffs, err) ->
  match err with
  | None => reffs = map ReceiveBlock bs /\ forall b, b ∈ bs -> recv b <> INVALID_BLOCK
  | Some e => e = ValueError /\
      exists pre b post, bs = pre ++ b :: post /\ reffs = map ReceiveBlock (pre ++ [b]) /\
        recv b = INVALID_BLOCK /\ forall b', b' ∈ pre -> recv b' <> INVALID_BLOCK
  end.
Proof.
  revert reffs err. induction bs as [|x bs IH]; intros reffs err H; simpl in H.
  - injection H as <- <-. split; [reflexivity|]. intros b Hb. apply elem_of_nil in Hb. contradiction.
  - destruct (recv x) eqn:Ex;
      try (destruct (receive_blocks recv bs) as [r e] eqn:Eb; injection H as <- <-;
           specialize (IH _ _ eq_refl); destruct e as [e|];
           [ destruct IH as [-> (pre & b & post & -> & -> & Hb & Hpre)]; split; [reflexivity|];
             exists (x :: pre), b, post; split; [reflexivity|]; split; [reflexivity|];
             split; [exact Hb|]; intros b' Hb'; apply elem_of_cons in Hb' as [->|Hb'];
             [rewrite Ex; discriminate | auto]
           | destruct IH as [-> Hall]; split; [reflexivity|]; intros b' Hb';
             apply elem_of_cons in Hb' as [->|Hb']; [rewrite Ex; discriminate | auto] ]).
    injection H as <- <-. split; [reflexivity|]. exists [], x, bs.
    split; [reflexivity|]. split; [reflexivity|]. split; [exact Ex|].
    intros b' Hb'. apply elem_of_nil in Hb'. contradiction.
Qed.

(** [X11] A successful [wallet_short_sync_backtrack] walks down from the
    new peak header through the peer's answers: each header but the
    last has an unknown parent and a positive height, and the next one
    is the peer's answer for the height just below; the last one has a
    known parent or height at most 0.  The returned [fork_height] is the
    height of that last header minus one (or, when no header was
    fetched, [height - 1] for a known parent and 0 otherwise).  The
    calls are the rollback to [fork_height] when it is below the local
    peak height, the request-cache rollback, then [receive_block] on the
    headers in ascending order, none of them invalid; the new peak is at
    least as heavy as the local peak. *)
Theorem short_sync_backtrack_success (fuel : nat) (chain : LocalChain)
    (request_block_header : Z -> option HeaderBlock)
    (receive_block : HeaderBlock -> ReceiveBlockResult)
    (header_block : HeaderBlock) (fork_height : Z) (effs : list effect) :
  wallet_short_sync_backtrack fuel chain request_block_header receive_block header_block =
    Some (inr fork_height, effs) ->
  exists ext,
    (forall i b b', (header_block :: ext) !! i = Some b -> (header_block :: ext) !! S i = Some b' ->
       contains_block chain (prev_header_hash b) = false /\ height b > 0 /\
       request_block_header (height b - 1) = Some b') /\
    (forall b, last (header_block :: ext) = Some b ->
       contains_block chain (prev_header_hash b) = true \/ height b <= 0) /\
    fork_height = match last ext with
                  | Some b => height b - 1
                  | None => if contains_block chain (prev_header_hash header_block)
                            then height header_block - 1 else 0
                  end /\
    effs = (if bool_decide (fork_height < get_peak_height chain)
            then [ReorgRollback fork_height; UpdateUI] else []) ++
           [RollbackRequestCaches fork_height] ++ map ReceiveBlock (reverse (header_block :: ext)) /\
    (forall b, b ∈ header_block :: ext -> receive_block b <> INVALID_BLOCK) /\
    (forall p, get_peak_block chain = Some p -> weight p <= weight header_block).
Proof.
  unfold wallet_short_sync_backtrack.
  destruct (backtrack_loop _ _ _ _ _ _) as [[e|[blocks fh]]|] eqn:El; try discriminate.
  destruct (backtrack_loop_ok _ _ _ _ _ _ _ _ El) as (ext & -> & Hl & Hlast & Hf).
  destruct (negb _) eqn:Hw; [discriminate|].
  destruct (receive_blocks receive_block (reverse ([header_block] ++ ext))) as [reffs err] eqn:Er.
  pose proof (receive_blocks_spec _ _ _ _ Er) as Hr.
  destruct err as [e|]; [discriminate|]. destruct Hr as [-> Hall].
  intros H. injection H as <- <-.
  exists ext. split; [intros i b b'; apply linked_lookup; exact Hl|].
  split; [exact Hlast|]. split; [exact Hf|]. split; [rewrite <- app_assoc; reflexivity|]. split.
  - intros b Hb. apply Hall. rewrite elem_of_reverse. exact Hb.
  - intros p Hp. rewrite Hp in Hw. apply negb_false_iff, bool_decide_eq_true in Hw. lia.
Qed.

Lemma short_sync_backtrack_success_witness :
  let hb := mkHB 3 30 33 22 None in
  let b2 := mkHB 2 20 22 11 None in
  let chain := mkLocalChain (fun h => bool_decide (h = 11)) 2 None in
  let req := fun h => if bool_decide (h = 2) then Some b2 else None in
  wallet_short_sync_backtrack 5 chain req (fun _ => NEW_PEAK) hb =
    Some (inr 1, [ReorgRollback 1; UpdateUI; RollbackRequestCaches 1; ReceiveBlock b2; ReceiveBlock hb]) /\
  exists ext,
    (forall i b b', (hb :: ext) !! i = Some b -> (hb :: ext) !! S i = Some b' ->
       contains_block chain (prev_header_hash b) = false /\ height b > 0 /\ req (height b - 1) = Some b') /\
    (forall b, last (hb :: ext) = Some b ->
       contains_block chain (prev_header_hash b) = true \/ height b <= 0) /\
    1 = match last ext with
        | Some b => height b - 1
        | None => if contains_block chain (prev_header_hash hb) then height hb - 1 else 0
        end /\
    [ReorgRollback 1; UpdateUI; RollbackRequestCaches 1; ReceiveBlock b2; ReceiveBlock hb] =
      (if bool_decide (1 < get_peak_height chain) then [ReorgRollback 1; UpdateUI] else []) ++
      [RollbackRequestCaches 1] ++ map ReceiveBlock (reverse (hb :: ext)) /\
    (forall b, b ∈ hb :: ext -> (fun _ => NEW_PEAK) b <> INVALID_BLOCK) /\
    (forall p, get_peak_block chain = Some p -> weight p <= weight hb).
Proof.
  intros hb b2 chain req.
  assert (E : wallet_short_sync_backtrack 5 chain req (fun _ => NEW_PEAK) hb =
    Some (inr 1, [ReorgRollback 1; UpdateUI; RollbackRequestCaches 1; ReceiveBlock b2; ReceiveBlock hb]))
    by reflexivity.
  split; [exact E|]. exact (short_sync_backtrack_success _ _ _ _ _ _ _ E).
Defined.

(** [X12] How [wallet_short_sync_backtrack] fails: a missing header from
    the peer raises [RuntimeError] before anything is changed; a new
    peak lighter than the local peak raises [AssertionError] after the
    wallet and the request caches have been rolled back, and an
    [INVALID_BLOCK] raises [ValueError] after the rollbacks and after
    the headers below it were received: the rollbacks are never
    undone. *)
Theorem short_sync_backtrack_failure (fuel : nat) (chain : LocalChain)
    (request_block_header : Z -> option HeaderBlock)
    (receive_block : HeaderBlock -> ReceiveBlockResult)
    (header_block : HeaderBlock) (e : Exn) (effs : list effect) :
  wallet_short_sync_backtrack fuel chain request_block_header receive_block header_block =
    Some (inl e, effs) ->
  (e = RuntimeError /\ effs = []) \/
  exists fork_height,
    let rollback := (if bool_decide (fork_height < get_peak_height chain)
                     then [ReorgRollback fork_height; UpdateUI] else []) ++
                    [RollbackRequestCaches fork_height] in
    (e = AssertionError /\ effs = rollback /\
     exists p, get_peak_block chain = Some p /\ weight header_block < weight p) \/
    (e = ValueError /\
     exists pre b, effs = rollback ++ map ReceiveBlock (pre ++ [b]) /\
       receive_block b = INVALID_BLOCK /\ (forall b', b' ∈ pre -> receive_block b' <> INVALID_BLOCK)).
Proof.
  unfold wallet_short_sync_backtrack.
  destruct (backtrack_loop _ _ _ _ _ _) as [[e0|[blocks fh]]|] eqn:El; try discriminate.
  { intros H. injection H as <- <-. left. split; [|reflexivity].
    exact (backtrack_loop_err _ _ _ _ _ _ _ El). }
  intros H. right. exists fh. cbv zeta.
  destruct (negb _) eqn:Hw.
  { injection H as <- <-. left. split; [reflexivity|]. split; [reflexivity|].
    destruct (get_peak_block chain) as [p|]; [|discriminate].
    apply negb_true_iff, bool_decide_eq_false in Hw. exists p. split; [reflexivity|]. lia. }
  destruct (receive_blocks receive_block (reverse blocks)) as [reffs err] eqn:Er.
  pose proof (receive_blocks_spec _ _ _ _ Er) as Hr.
  destruct err as [e0|]; [|discriminate].
  injection H as <- <-. destruct Hr as [-> (pre & b & post & Hbs & -> & Hb & Hpre)].
  right. split; [reflexivity|]. exists pre, b.
  split; [reflexivity|]. split; [exact Hb|]. exact Hpre.
Qed.

Lemma short_sync_backtrack_failure_witness :
  let hb := mkHB 3 30 33 22 None in
  let b2 := mkHB 2 20 22 11 None in
  let chain := mkLocalChain (fun h => bool_decide (h = 11)) 2 None in
  let req := fun h => if bool_decide (h = 2) then Some b2 else None in
  let recv := fun b => if bool_decide (height b = 3) then INVALID_BLOCK else NEW_PEAK in
  wallet_short_sync_backtrack 5 chain req recv hb =
    Some (inl ValueError, [ReorgRollback 1; UpdateUI; RollbackRequestCaches 1;
                           ReceiveBlock b2; ReceiveBlock hb]) /\
  ((ValueError = RuntimeError /\ [ReorgRollback 1; UpdateUI; RollbackRequestCaches 1;
                                  ReceiveBlock b2; ReceiveBlock hb] = []) \/
   exists fork_height,
    let rollback := (if bool_decide (fork_height < get_peak_height chain)
                     then [ReorgRollback fork_height; UpdateUI] else []) ++
                    [RollbackRequestCaches fork_height] in
    (ValueError = AssertionError /\
     [ReorgRollback 1; UpdateUI; RollbackRequestCaches 1; ReceiveBlock b2; ReceiveBlock hb] = rollback /\
     exists p, get_peak_block chain = Some p /\ weight hb < weight p) \/
    (ValueError = ValueError /\
     exists pre b,
       [ReorgRollback 1; UpdateUI; RollbackRequestCaches 1; ReceiveBlock b2; ReceiveBlock hb] =
         rollback ++ map ReceiveBlock (pre ++ [b]) /\
       recv b = INVALID_BLOCK /\ (forall b', b' ∈ pre -> recv b' <> INVALID_BLOCK))).
Proof.
  intros hb b2 chain req recv.
  assert (E : wallet_short_sync_backtrack 5 chain req recv hb =
    Some (inl ValueError, [ReorgRollback 1; UpdateUI; RollbackRequestCaches 1;
                           ReceiveBlock b2; ReceiveBlock hb])) by reflexivity.
  split; [exact E|]. exact (short_sync_backtrack_failure _ _ _ _ _ _ _ E).
Defined.

End BacktrackFacts.

(* ------------------------------------------------------------------ *)
(** ** [validate_received_state_from_peer] *)

Module ValidatorFacts.
Import Types Validator.

(** The events a run appends to the log. *)
Definition new_events (st st' : St) : list event := drop (length (log st)) (log st').

(** A computation that only appends to the log, never a failed
    additions answer. *)
Definition no_failed_additions {A} (m : M A) : Prop :=
  forall st r st', m st = (r, st') ->
    exists l, log st' = log st ++ l /\ AdditionsChecked false ∉ l.

(** A computation that leaves [states_validated] alone. *)
Definition keeps_validated {A} (m : M A) : Prop :=
  forall st r st', m st = (r, st') -> states_validated st' = states_validated st.

Lemma bind_inv {A B} (m : M A) (k : A -> M B) (st st' : St) (r : Exn + B) :
  bind m k st = (r, st') ->
  (exists e, m st = (inl e, st') /\ r = inl e) \/
  (exists a st1, m st = (inr a, st1) /\ k a st1 = (r, st')).
Proof.
  unfold bind. destruct (m st) as [[e|a] st1]; intros H.
  - left. injection H as <- <-. eauto.
  - right. eauto.
Qed.

Lemma nfa_bind {A B} (m : M A) (k : A -> M B) :
  no_failed_additions m -> (forall a, no_failed_additions (k a)) ->
  no_failed_additions (bind m k).
Proof.
  intros Hm Hk st r st' H. apply bind_inv in H as [[e [H1 _]]|[a [st1 [H1 H2]]]].
  - exact (Hm _ _ _ H1).
  - destruct (Hm _ _ _ H1) as [l1 [E1 N1]]. destruct (Hk a _ _ _ H2) as [l2 [E2 N2]].
    exists (l1 ++ l2). rewrite E2, E1, app_assoc. split; [reflexivity|].
    rewrite elem_of_app. tauto.
Qed.

Lemma nfa_pure {A} (m : M A) :
  (forall st, (m st).2 = st) -> no_failed_additions m.
Proof.
  intros Hm st r st' H. exists []. rewrite app_nil_r.
  pose proof (Hm st) as E. rewrite H in E. simpl in E. subst st'.
  split; [reflexivity | apply not_elem_of_nil].
Qed.

Lemma nfa_ret {A} (a : A) : no_failed_additions (ret a).
Proof. apply nfa_pure. reflexivity. Qed.

Lemma nfa_raise {A} (e : Exn) : no_failed_additions (A := A) (raise e).
Proof. apply nfa_pure. reflexivity. Qed.

Lemma nfa_get : no_failed_additions get.
Proof. apply nfa_pure. reflexivity. Qed.

Lemma nfa_assert (b : bool) : no_failed_additions (assert b).
Proof. destruct b; apply nfa_pure; reflexivity. Qed.

Lemma nfa_emit (e : event) : e <> AdditionsChecked false -> no_failed_additions (emit e).
Proof.
  intros Hne st r st' H. injection H as <- <-. exists [e]. simpl.
  split; [reflexivity|]. rewrite elem_of_cons, elem_of_nil. intuition congruence.
Qed.

Lemma nfa_cache_block (h : Z) (b : HeaderBlock) : no_failed_additions (cache_block h b).
Proof.
  intros st r st' H. injection H as <- <-. exists []. simpl.
  rewrite app_nil_r. split; [reflexivity | apply not_elem_of_nil].
Qed.

Lemma nfa_record_validated (k : Z) (cs : CoinState) : no_failed_additions (record_validated k cs).
Proof.
  intros st r st' H. injection H as <- <-. exists []. simpl.
  rewrite app_nil_r. split; [reflexivity | apply not_elem_of_nil].
Qed.

Lemma nfa_fetch_header (env : Env) (h : Z) : no_failed_additions (fetch_header env h).
Proof.
  unfold fetch_header. apply nfa_bind; [apply nfa_emit; discriminate|intros _].
  destruct (request_header_blocks env h h) as [[|b bs]|];
    first [apply nfa_raise | apply nfa_ret].
Qed.

Lemma nfa_ftb_of (b : HeaderBlock) : no_failed_additions (ftb_of b).
Proof. unfold ftb_of. destruct (foliage_transaction_block b); [apply nfa_ret | apply nfa_raise]. Qed.

Lemma nfa_check_removal (env : Env) (cs : CoinState) (h : Z) (sb : HeaderBlock) :
  no_failed_additions (check_removal env cs h sb).
Proof.
  unfold check_removal. apply nfa_bind; [apply nfa_ftb_of|intros f].
  apply nfa_bind; [apply nfa_emit; discriminate|intros _].
  destruct (negb _); [|apply nfa_ret].
  apply nfa_bind; [apply nfa_emit; discriminate|intros _]. apply nfa_ret.
Qed.

Ltac destruct_goal_match :=
  match goal with
  | |- context [match ?x with _ => _ end] => destruct x
  end.

Ltac nfa_tac :=
  repeat first
    [ apply nfa_fetch_header | apply nfa_ftb_of | apply nfa_check_removal
    | apply nfa_bind; [|intros ?]
    | apply nfa_ret | apply nfa_raise | apply nfa_get | apply nfa_assert
    | apply nfa_cache_block | apply nfa_record_validated
    | apply nfa_emit; discriminate
    | destruct_goal_match ].


Lemma kv_fetch_header (env : Env) (h : Z) : keeps_validated (fetch_header env h).
Proof.
  unfold fetch_header, keeps_validated, bind, emit, ret, raise. intros st r st' H.
  destruct (request_header_blocks env h h) as [[|b bs]|]; injection H as _ <-; reflexivity.
Qed.

Lemma kv_bind {A B} (m : M A) (k : A -> M B) :
  keeps_validated m -> (forall a, keeps_validated (k a)) -> keeps_validated (bind m k).
Proof.
  intros Hm Hk st r st' H. apply bind_inv in H as [[e [H1 _]]|[a [st1 [H1 H2]]]].
  - exact (Hm _ _ _ H1).
  - rewrite (Hk a _ _ _ H2). exact (Hm _ _ _ H1).
Qed.

Lemma kv_ret {A} (a : A) : keeps_validated (ret a).
Proof. intros st r st' H. injection H as _ <-. reflexivity. Qed.

Lemma kv_cache_block (h : Z) (b : HeaderBlock) : keeps_validated (cache_block h b).
Proof. intros st r st' H. injection H as _ <-. reflexivity. Qed.

(** [C3] A failed additions proof closes the peer with code 9999 and
    makes [validate_received_state_from_peer] return [False]: whenever a
    run performs the additions check and it answers [False], the run
    returns [false], the last two events it appends are that answer and
    [peer.close(9999)], and [states_validated] is left unchanged. *)
Theorem validate_closes_peer_on_bad_additions (env : Env) (cs : CoinState) (st st' : St)
    (r : Exn + bool) (new : list event) :
  validate_received_state_from_peer env cs st = (r, st') ->
  log st' = log st ++ new ->
  AdditionsChecked false ∈ new ->
  r = inr false /\
  states_validated st' = states_validated st /\
  exists pre, new = pre ++ [AdditionsChecked false; PeerClose 9999].
Proof.
  intros Hrun Hlog Hin.
  (* the runs that never perform the additions check *)
  assert (Hno : forall (m : M bool), no_failed_additions m -> m st = (r, st') -> False).
  { intros m Hm Hm'. destruct (Hm _ _ _ Hm') as [l [E N]].
    rewrite Hlog in E. apply app_inv_head in E. subst l. contradiction. }
  unfold validate_received_state_from_peer in Hrun.
  destruct (can_use_peer_request_cache env); [exfalso; exact (Hno _ (nfa_ret _) Hrun)|].
  match type of Hrun with (if ?c then _ else _) _ = _ => destruct c end;
    [exfalso; exact (Hno _ (nfa_ret _) Hrun)|].
  match type of Hrun with (let '(_, _) := ?p in _) _ = _ => destruct p as [reorg_mode [ch|]] end;
    [|exfalso; exact (Hno _ (nfa_ret _) Hrun)].
  apply bind_inv in Hrun as [[e [Hg _]]|[st0 [st1 [Hg Hrun]]]]; [discriminate|].
  injection Hg as <- <-.
  set (SB := match blocks st !! ch with
             | Some b => if reorg_mode then (b' <- fetch_header env ch ;; cache_block ch b' ;;; ret b')
                         else ret b
             | None => b' <- fetch_header env ch ;; cache_block ch b' ;;; ret b'
             end) in Hrun.
  assert (HSBn : no_failed_additions SB).
  { subst SB. nfa_tac. }
  assert (HSBk : keeps_validated SB).
  { subst SB. repeat first [ apply kv_fetch_header | apply kv_ret | apply kv_cache_block
                           | apply kv_bind; [|intros ?] | destruct_goal_match ]. }
  apply bind_inv in Hrun as [[e [H1 He]]|[sb [st2 [H1 Hrun]]]].
  { exfalso. destruct (HSBn _ _ _ H1) as [l [E N]].
    rewrite Hlog in E. apply app_inv_head in E. subst l. contradiction. }
  destruct (HSBn _ _ _ H1) as [l2 [E2 N2]]. pose proof (HSBk _ _ _ H1) as K2.
  apply bind_inv in Hrun as [[e [H3 He]]|[f [st3 [H3 Hrun]]]].
  { exfalso. unfold ftb_of in H3. destruct (foliage_transaction_block sb); [discriminate|].
    injection H3 as _ <-. rewrite Hlog in E2. apply app_inv_head in E2. subst l2. contradiction. }
  assert (st3 = st2) as ->.
  { unfold ftb_of, ret, raise in H3.
    destruct (foliage_transaction_block sb); injection H3 as _ <-; reflexivity. }
  apply bind_inv in Hrun as [[e [H4 _]]|[u [st4 [H4 Hrun]]]]; [discriminate|].
  injection H4 as _ <-.
  destruct (request_and_validate_additions env _ _ _ _) eqn:Eadd; simpl in Hrun.
  - (* the additions proof succeeded: no failed answer is logged afterwards *)
    exfalso.
    set (st4 := mkSt (blocks st2) (states_validated st2) (log st2 ++ [AdditionsChecked true])) in Hrun.
    assert (Hrest : exists l, log st' = log st4 ++ l /\ AdditionsChecked false ∉ l).
    { revert Hrun. generalize st4. intros s0 Hrun'.
      match type of Hrun' with ?m s0 = _ =>
        assert (Hm : no_failed_additions m) by nfa_tac
      end.
      exact (Hm _ _ _ Hrun'). }
    destruct Hrest as [l [E N]]. subst st4. simpl in E.
    rewrite E2, Hlog, <- !app_assoc in E. apply app_inv_head in E. subst new.
    rewrite !elem_of_app, elem_of_cons, elem_of_nil in Hin.
    intuition congruence.
  - apply bind_inv in Hrun as [[e [H5 _]]|[u5 [st5 [H5 Hrun]]]]; [discriminate|].
    injection H5 as _ <-. injection Hrun as <- <-. simpl in *.
    split; [reflexivity|]. split; [exact K2|].
    exists l2. rewrite E2, <- !app_assoc in Hlog. apply app_inv_head in Hlog.
    rewrite <- Hlog. reflexivity.
Qed.

(** [C3] witness: an untrusted peer, a coin created at height 5 whose
    header is already cached, and a peer that answers [False] to the
    additions proof. *)
Lemma validate_closes_peer_on_bad_additions_witness :
  let env := mkEnv false (fun _ => None) (fun _ _ => None) (fun _ _ _ _ => false)
               (fun _ _ _ _ => true) (fun _ => true) (fun _ => 0) (fun _ => 0) in
  let cs := mkCoinState (mkCoin 0 0 1) None (Some 5) in
  let hb := mkHB 5 50 105 104 (Some (mkFTB 0 0 0)) in
  let st := mkSt {[5 := hb]} empty [] in
  let st' := mkSt {[5 := hb]} empty [AdditionsChecked false; PeerClose 9999] in
  validate_received_state_from_peer env cs st = (inr false, st') /\
  inr false = (inr false : Exn + bool) /\
  states_validated st' = states_validated st /\
  exists pre, [AdditionsChecked false; PeerClose 9999] =
              pre ++ [AdditionsChecked false; PeerClose 9999].
Proof.
  intros env cs hb st st'.
  assert (Hrun : validate_received_state_from_peer env cs st = (inr false, st'))
    by reflexivity.
  split; [exact Hrun|].
  apply (validate_closes_peer_on_bad_additions env cs st st' (inr false)
           [AdditionsChecked false; PeerClose 9999] Hrun).
  - reflexivity.
  - rewrite elem_of_cons. left. reflexivity.
Defined.


Lemma kv_raise {A} (e : Exn) : keeps_validated (A := A) (raise e).
Proof. intros st r st' H. injection H as _ <-. reflexivity. Qed.

Lemma kv_get : keeps_validated get.
Proof. intros st r st' H. injection H as _ <-. reflexivity. Qed.

Lemma kv_emit (e : event) : keeps_validated (emit e).
Proof. intros st r st' H. injection H as _ <-. reflexivity. Qed.

Lemma kv_assert (b : bool) : keeps_validated (assert b).
Proof. destruct b; [apply kv_ret | apply kv_raise]. Qed.

Lemma kv_ftb_of (b : HeaderBlock) : keeps_validated (ftb_of b).
Proof. unfold ftb_of. destruct (foliage_transaction_block b); [apply kv_ret | apply kv_raise]. Qed.

Ltac kv_tac :=
  repeat first
    [ apply kv_fetch_header | apply kv_ftb_of | apply kv_ret | apply kv_raise | apply kv_get
    | apply kv_assert | apply kv_emit | apply kv_cache_block
    | apply kv_bind; [|intros ?]
    | destruct_goal_match ].

Lemma kv_check_removal (env : Env) (cs : CoinState) (h : Z) (sb : HeaderBlock) :
  keeps_validated (check_removal env cs h sb).
Proof. unfold check_removal. kv_tac. Qed.

(** [states_validated] is left alone, or gets the entry [k := cs] on a
    run answering [True]. *)
Definition sv_ok {A} (k : Z) (cs : CoinState) (m : M A) (ok : A) : Prop :=
  forall st r st', m st = (r, st') ->
    states_validated st' = states_validated st \/
    (r = inr ok /\ states_validated st' = <[k := cs]> (states_validated st)).

Lemma sv_of_kv {A} k cs (m : M A) ok : keeps_validated m -> sv_ok k cs m ok.
Proof. intros Hm st r st' H. left. exact (Hm _ _ _ H). Qed.

Lemma sv_bind_kv {A B} k cs (m : M A) (f : A -> M B) ok :
  keeps_validated m -> (forall a, sv_ok k cs (f a) ok) -> sv_ok k cs (bind m f) ok.
Proof.
  intros Hm Hf st r st' H. apply bind_inv in H as [[e [H1 He]]|[a [st1 [H1 H2]]]].
  - left. exact (Hm _ _ _ H1).
  - rewrite <- (Hm _ _ _ H1). exact (Hf a _ _ _ H2).
Qed.

Lemma sv_record_ret k cs : sv_ok k cs (record_validated k cs ;;; ret true) true.
Proof. intros st r st' H. injection H as <- <-. right. split; reflexivity. Qed.

(** Every entry of [PeerRequestCache.blocks] is kept, or is the first
    header the peer returned for a request of that height. *)
Definition blocks_ok (env : Env) (st st' : St) : Prop :=
  forall k, blocks st' !! k = blocks st !! k \/
            exists b bs, request_header_blocks env k k = Some (b :: bs) /\ blocks st' !! k = Some b.

Definition bo {A} (env : Env) (m : M A) : Prop :=
  forall st r st', m st = (r, st') -> blocks_ok env st st'.

Lemma blocks_ok_refl env st st' : blocks st' = blocks st -> blocks_ok env st st'.
Proof. intros E k. left. rewrite E. reflexivity. Qed.

Lemma blocks_ok_trans env st1 st2 st3 :
  blocks_ok env st1 st2 -> blocks_ok env st2 st3 -> blocks_ok env st1 st3.
Proof.
  intros H12 H23 k. destruct (H23 k) as [E|E]; [rewrite E; exact (H12 k)|right; exact E].
Qed.

Lemma bo_bind {A B} env (m : M A) (f : A -> M B) :
  bo env m -> (forall a, bo env (f a)) -> bo env (bind m f).
Proof.
  intros Hm Hf st r st' H. apply bind_inv in H as [[e [H1 _]]|[a [st1 [H1 H2]]]].
  - exact (Hm _ _ _ H1).
  - exact (blocks_ok_trans _ _ _ _ (Hm _ _ _ H1) (Hf a _ _ _ H2)).
Qed.

Lemma bo_kv_like {A} env (m : M A) : (forall st, blocks (m st).2 = blocks st) -> bo env m.
Proof.
  intros Hm st r st' H. apply blocks_ok_refl. pose proof (Hm st) as E. rewrite H in E. exact E.
Qed.

Lemma bo_ret {A} env (a : A) : bo env (ret a).
Proof. apply bo_kv_like. reflexivity. Qed.
Lemma bo_raise {A} env (e : Exn) : bo env (A := A) (raise e).
Proof. apply bo_kv_like. reflexivity. Qed.
Lemma bo_get env : bo env get.
Proof. apply bo_kv_like. reflexivity. Qed.
Lemma bo_emit env e : bo env (emit e).
Proof. apply bo_kv_like. reflexivity. Qed.
Lemma bo_assert env b : bo env (assert b).
Proof. destruct b; [apply bo_ret | apply bo_raise]. Qed.
Lemma bo_record env k cs : bo env (record_validated k cs).
Proof. apply bo_kv_like. reflexivity. Qed.
Lemma bo_ftb_of env b : bo env (ftb_of b).
Proof. unfold ftb_of. destruct (foliage_transaction_block b); [apply bo_ret | apply bo_raise]. Qed.

Lemma bo_bind_fetch {A} env h (f : HeaderBlock -> M A) :
  (forall b bs, request_header_blocks env h h = Some (b :: bs) -> bo env (f b)) ->
  bo env (bind (fetch_header env h) f).
Proof.
  intros Hf st r st' H. unfold fetch_header, bind, emit, ret, raise in H.
  destruct (request_header_blocks env h h) as [[|b bs]|] eqn:E.
  - injection H as _ <-. apply blocks_ok_refl. reflexivity.
  - eapply blocks_ok_trans; [|exact (Hf b bs eq_refl _ _ _ H)]. apply blocks_ok_refl. reflexivity.
  - injection H as _ <-. apply blocks_ok_refl. reflexivity.
Qed.

Lemma bo_bind_cache {A} env h b bs (f : unit -> M A) :
  request_header_blocks env h h = Some (b :: bs) -> (forall u, bo env (f u)) ->
  bo env (bind (cache_block h b) f).
Proof.
  intros Hreq Hf st r st' H. unfold bind, cache_block in H.
  eapply blocks_ok_trans; [|exact (Hf tt _ _ _ H)].
  intros k. simpl. destruct (decide (k = h)) as [->|Hne].
  - right. exists b, bs. split; [exact Hreq|]. apply lookup_insert_eq.
  - left. apply lookup_insert_ne. congruence.
Qed.

Ltac bo_tac :=
  repeat first
    [ apply bo_bind_fetch; intros ? ? ?
    | eapply bo_bind_cache; [eassumption|intros ?]
    | apply bo_ftb_of | apply bo_ret | apply bo_raise | apply bo_get | apply bo_assert
    | apply bo_emit | apply bo_record
    | apply bo_bind; [|intros ?]
    | destruct_goal_match ].

Lemma bo_check_removal env cs h sb : bo env (check_removal env cs h sb).
Proof. unfold check_removal. bo_tac. Qed.

Lemma validate_sv (env : Env) (cs : CoinState) :
  sv_ok (coin_state_hash env cs) cs (validate_received_state_from_peer env cs) true.
Proof.
  unfold validate_received_state_from_peer.
  repeat first
    [ apply sv_record_ret
    | apply sv_bind_kv; [solve [kv_tac; apply kv_check_removal] | intros ?]
    | apply sv_of_kv; solve [kv_tac; apply kv_check_removal]
    | destruct_goal_match ].
Qed.

Lemma validate_bo (env : Env) (cs : CoinState) : bo env (validate_received_state_from_peer env cs).
Proof.
  unfold validate_received_state_from_peer.
  repeat first [ apply bo_check_removal | progress bo_tac ].
Qed.

(** [X13] [validate_received_state_from_peer] writes to
    [states_validated] only the entry [coin_state.get_hash() :=
    coin_state], and only on a run that returns [True]; and every entry
    it writes to the request cache's [blocks] is the first header the
    peer returned when asked for exactly that height (whatever the
    run's outcome, exceptions included). *)
Theorem validate_received_state_writes (env : Env) (cs : CoinState) (st st' : St) (r : Exn + bool) :
  validate_received_state_from_peer env cs st = (r, st') ->
  (states_validated st' = states_validated st \/
   (r = inr true /\ states_validated st' = <[coin_state_hash env cs := cs]> (states_validated st))) /\
  (forall k, blocks st' !! k = blocks st !! k \/
     exists b bs, request_header_blocks env k k = Some (b :: bs) /\ blocks st' !! k = Some b).
Proof.
  intros H. split; [exact (validate_sv env cs _ _ _ H) | exact (validate_bo env cs _ _ _ H)].
Qed.

Lemma validate_received_state_writes_witness :
  let env := mkEnv false (fun _ => None) (fun lo _ => Some [mkHB lo 50 105 104 (Some (mkFTB 0 0 0))])
               (fun _ _ _ _ => true) (fun _ _ _ _ => true) (fun _ => true) (fun _ => 0) (fun _ => 42) in
  let cs := mkCoinState (mkCoin 0 0 1) None (Some 5) in
  let st := mkSt empty empty [] in
  exists r st', validate_received_state_from_peer env cs st = (r, st') /\
  (states_validated st' = states_validated st \/
   (r = inr true /\ states_validated st' = <[coin_state_hash env cs := cs]> (states_validated st))) /\
  (forall k, blocks st' !! k = blocks st !! k \/
     exists b bs, request_header_blocks env k k = Some (b :: bs) /\ blocks st' !! k = Some b).
Proof.
  intros env cs st. eexists _, _.
  assert (E : validate_received_state_from_peer env cs st = (_, _)) by (vm_compute; reflexivity).
  split; [exact E|]. exact (validate_received_state_writes env cs st _ _ E).
Defined.

End ValidatorFacts.

(* ------------------------------------------------------------------ *)
(** ** The weight-proof cache *)

Module WeightProofGateFacts.
Import Types WeightProofGate.

(** The result a call returns for [wp] once [validate_weight_proof]
    (or the cache) has produced the tuple [v]. *)
Definition result_of (wp : WeightProof) (v : Validation) : Result :=
  let '(valid, _, summaries, block_records) := v in (valid, Some wp, summaries, block_records).

Lemma fetch_passes_peak (validate : WeightProof -> Validation) (wp : WeightProof)
    (peak : HeaderBlock) (st : St) :
  matches_peak wp peak ->
  fetch_and_validate_the_weight_proof validate (Some wp) peak st =
    match valid_wp_cache st !! wp_hash wp with
    | Some v => (inr (result_of wp v), st)
    | None =>
        let v := validate wp in
        (inr (result_of wp v),
         mkSt (if v.1.1.1 then <[wp_hash wp := v]> (valid_wp_cache st) else valid_wp_cache st)
              (S (validator_calls st)))
    end.
Proof.
  unfold matches_peak. intros Hm. unfold fetch_and_validate_the_weight_proof. rewrite Hm.
  rewrite !bool_decide_eq_false_2 by congruence.
  destruct (valid_wp_cache st !! wp_hash wp) as [[[[? ?] ?] ?]|]; [reflexivity|].
  destruct (validate wp) as [[[[] ?] ?] ?]; reflexivity.
Qed.

(** [C7] Two successive calls for weight proofs with the same hash that
    both match the claimed peak: when the hash is not cached before the
    first call and the first validation is valid, the first call stores
    the validator's tuple in [valid_wp_cache], the second call returns
    that cached tuple and leaves the state alone, and the validator has
    been called exactly once over the two calls. *)
Theorem weight_proof_validated_once (validate : WeightProof -> Validation)
    (wp1 wp2 : WeightProof) (peak : HeaderBlock) (st : St) :
  wp_hash wp1 = wp_hash wp2 ->
  matches_peak wp1 peak ->
  matches_peak wp2 peak ->
  valid_wp_cache st !! wp_hash wp1 = None ->
  (validate wp1).1.1.1 = true ->
  exists st1,
    fetch_and_validate_the_weight_proof validate (Some wp1) peak st =
      (inr (result_of wp1 (validate wp1)), st1) /\
    valid_wp_cache st1 !! wp_hash wp1 = Some (validate wp1) /\
    fetch_and_validate_the_weight_proof validate (Some wp2) peak st1 =
      (inr (result_of wp2 (validate wp1)), st1) /\
    validator_calls st1 = S (validator_calls st).
Proof.
  intros Hh H1 H2 Hnone Hvalid.
  rewrite (fetch_passes_peak _ _ _ _ H1), Hnone. cbv zeta. rewrite Hvalid.
  eexists. split; [reflexivity|].
  assert (Hc : valid_wp_cache (mkSt (<[wp_hash wp1 := validate wp1]> (valid_wp_cache st))
                                    (S (validator_calls st))) !! wp_hash wp1 = Some (validate wp1)).
  { simpl. apply lookup_insert_eq. }
  split; [exact Hc|]. split; [|reflexivity].
  rewrite (fetch_passes_peak _ _ _ _ H2), <- Hh, Hc. reflexivity.
Qed.

(** [C7] witness: a proof with hash 7 ending at the peak's height 10
    and weight 100, validated as valid. *)
Lemma weight_proof_validated_once_witness :
  let wp := mkWP 7 [(5, 50); (10, 100)] in
  let peak := mkHB 10 100 1 0 None in
  let validate := fun _ : WeightProof => (true, 3, [1], [2]) : Validation in
  exists st1,
    fetch_and_validate_the_weight_proof validate (Some wp) peak (mkSt empty 0) =
      (inr (result_of wp (validate wp)), st1) /\
    valid_wp_cache st1 !! wp_hash wp = Some (validate wp) /\
    fetch_and_validate_the_weight_proof validate (Some wp) peak st1 =
      (inr (result_of wp (validate wp)), st1) /\
    validator_calls st1 = S (validator_calls (mkSt empty 0)).
Proof.
  intros wp peak validate.
  apply (weight_proof_validated_once validate wp wp peak (mkSt empty 0));
    reflexivity.
Defined.

(** [C7] counterexample: when the first validation is invalid nothing is
    cached, so two successive calls for the same proof call the
    validator twice. *)
Lemma weight_proof_validated_twice_counterexample :
  let wp := mkWP 7 [(10, 100)] in
  let peak := mkHB 10 100 1 0 None in
  let validate := fun _ : WeightProof => (false, 0, [], []) : Validation in
  match fetch_and_validate_the_weight_proof validate (Some wp) peak (mkSt empty 0) with
  | (_, st1) =>
      match fetch_and_validate_the_weight_proof validate (Some wp) peak st1 with
      | (_, st2) => validator_calls st2 = 2%nat
      end
  end.
Proof. reflexivity. Qed.

(** [X15] One call of [fetch_and_validate_the_weight_proof], whatever
    the peer answers: cached tuples are kept; a new cache entry is the
    validator's valid tuple for the answered proof, which matches the
    claimed peak, stored under its hash; the validator is called at most
    once, and only for such a proof whose hash was not cached; the only
    exception is [IndexError], for a proof with no recent chain data; and
    a result marked valid carries the answered proof, which matches the
    peak. *)
Theorem fetch_weight_proof_cache_discipline (validate : WeightProof -> Validation)
    (response : option WeightProof) (peak : HeaderBlock) (st : St) :
  let '(r, st') := fetch_and_validate_the_weight_proof validate response peak st in
  (forall k v, valid_wp_cache st !! k = Some v -> valid_wp_cache st' !! k = Some v) /\
  (forall k v, valid_wp_cache st' !! k = Some v ->
     valid_wp_cache st !! k = Some v \/
     exists wp, response = Some wp /\ matches_peak wp peak /\ k = wp_hash wp /\
                v = validate wp /\ v.1.1.1 = true) /\
  (validator_calls st' = validator_calls st \/
   (validator_calls st' = S (validator_calls st) /\
    exists wp, response = Some wp /\ matches_peak wp peak /\ valid_wp_cache st !! wp_hash wp = None)) /\
  (forall e, r = inl e -> e = IndexError /\ exists wp, response = Some wp /\ recent_chain_data wp = []) /\
  (forall res, r = inr res -> res.1.1.1 = true ->
     exists wp, response = Some wp /\ matches_peak wp peak /\ res.1.1.2 = Some wp).
Proof.
  unfold fetch_and_validate_the_weight_proof, matches_peak.
  destruct response as [wp|].
  2:{ split; [auto|]. split; [auto|]. split; [auto|]. split; [discriminate|].
      intros res [= <-]. discriminate. }
  destruct (last (recent_chain_data wp)) as [[h w]|] eqn:Hl.
  2:{ split; [auto|]. split; [auto|]. split; [auto|]. split.
      - intros e [= <-]. split; [reflexivity|]. exists wp. split; [reflexivity|].
        destruct (recent_chain_data wp) as [|x l] using rev_ind; [reflexivity|].
        rewrite last_snoc in Hl. discriminate.
      - discriminate. }
  destruct (decide (h = height peak)) as [Eh|Nh].
  2:{ rewrite bool_decide_eq_true_2 by exact Nh.
      split; [auto|]. split; [auto|]. split; [auto|]. split; [discriminate|].
      intros res [= <-]. discriminate. }
  rewrite bool_decide_eq_false_2 by (intros C; exact (C Eh)).
  destruct (decide (w = weight peak)) as [Ew|Nw].
  2:{ rewrite bool_decide_eq_true_2 by exact Nw.
      split; [auto|]. split; [auto|]. split; [auto|]. split; [discriminate|].
      intros res [= <-]. discriminate. }
  rewrite bool_decide_eq_false_2 by (intros C; exact (C Ew)).
  subst h w.
  destruct (valid_wp_cache st !! wp_hash wp) as [[[[valid fp] sums] brs]|] eqn:Hc.
  - split; [auto|]. split; [auto|]. split; [auto|]. split; [discriminate|].
    intros res [= <-] _. exists wp. auto.
  - destruct (validate wp) as [[[valid fp] sums] brs] eqn:Hv. cbn [valid_wp_cache validator_calls].
    split; [|split; [|split; [|split]]].
    + intros k v Hk. destruct valid; [|exact Hk].
      rewrite lookup_insert_ne; [exact Hk|]. intros <-. discriminate (eq_trans (eq_sym Hk) Hc).
    + intros k v Hk. destruct valid; [|left; exact Hk].
      destruct (decide (wp_hash wp = k)) as [<-|Hne].
      * rewrite lookup_insert_eq in Hk. injection Hk as <-. right.
        exists wp. auto.
      * rewrite lookup_insert_ne in Hk by exact Hne. left. exact Hk.
    + right. split; [reflexivity|]. exists wp. auto.
    + discriminate.
    + intros res [= <-] _. exists wp. auto.
Qed.

End WeightProofGateFacts.

(* ------------------------------------------------------------------ *)
(** ** [finished_sync_up_to] *)

Module FinishedSyncFacts.
Import FinishedSync.

Lemma apply_update_ge (u : update) (fsu : Z) : fsu <= apply_update u fsu.
Proof.
  destruct u as [t|b h]; simpl.
  - unfold long_sync_finish. destruct (decide (t > fsu)); lia.
  - unfold new_peak_finish. destruct b; simpl; [|lia].
    case_bool_decide; lia.
Qed.

Lemma trace_head (us : list update) (fsu : Z) : trace us fsu !! 0%nat = Some fsu.
Proof. destruct us; reflexivity. Qed.

Lemma trace_ge_start (us : list update) (fsu : Z) (j : nat) (y : Z) :
  trace us fsu !! j = Some y -> fsu <= y.
Proof.
  revert fsu j. induction us as [|u us IH]; intros fsu j Hj.
  - destruct j as [|[|j]]; simpl in Hj; [injection Hj as <-; lia | discriminate | discriminate].
  - destruct j as [|j]; simpl in Hj; [injection Hj as <-; lia|].
    pose proof (apply_update_ge u fsu). pose proof (IH _ _ Hj). lia.
Qed.

(** [C8] Both writes of [finished_sync_up_to] (end of [long_sync] with
    [target_height], end of [new_peak_wallet] with [peak.height] for a
    synced peer) set the new value only when it is strictly greater than
    the current one and otherwise leave it unchanged; hence, over any
    sequence of such writes applied one after the other, the successive
    values never decrease. *)
Theorem finished_sync_up_to_monotone :
  (forall t fsu,
      (t > fsu -> long_sync_finish t fsu = t) /\
      (t <= fsu -> long_sync_finish t fsu = fsu)) /\
  (forall synced h fsu,
      (synced = true -> h > fsu -> new_peak_finish synced h fsu = h) /\
      (synced = false \/ h <= fsu -> new_peak_finish synced h fsu = fsu)) /\
  (forall us fsu i j x y,
      (i <= j)%nat -> trace us fsu !! i = Some x -> trace us fsu !! j = Some y -> x <= y).
Proof.
  split; [|split].
  - intros t fsu. unfold long_sync_finish.
    split; intros H; destruct (decide (t > fsu)); lia.
  - intros synced h fsu. unfold new_peak_finish. split.
    + intros -> H. rewrite bool_decide_true by exact H. reflexivity.
    + intros [-> | H]; [reflexivity|].
      rewrite bool_decide_false by lia. destruct synced; reflexivity.
  - induction us as [|u us IH]; intros fsu i j x y Hij Hi Hj.
    + destruct i as [|[|i]]; [|discriminate|discriminate].
      destruct j as [|[|j]]; [|discriminate|discriminate].
      simpl in Hi, Hj. injection Hi as <-. injection Hj as <-. lia.
    + destruct i as [|i].
      * simpl in Hi. injection Hi as <-.
        destruct j as [|j]; simpl in Hj; [injection Hj as <-; lia|].
        pose proof (apply_update_ge u fsu). pose proof (trace_ge_start _ _ _ _ Hj). lia.
      * destruct j as [|j]; [lia|]. simpl in Hi, Hj.
        apply (IH (apply_update u fsu) i j); [lia | exact Hi | exact Hj].
Qed.

End FinishedSyncFacts.

(* ------------------------------------------------------------------ *)
(** ** [subscribe_to_phs] and [subscribe_to_coin_updates] *)

Module SubscribeFacts.
Import Types Subscribe.

(** [C10] For both subscription functions, with any filter and any
    answer [response] of the peer to the registration: with no
    response the result is the empty list; with a response, an
    untrusted peer and [syncing = Some false], a missing [fork_height]
    raises [AssertionError] and a given one returns the filtered coin
    states; in every other case (trusted peer, or [syncing] not
    [Some false]) the coin states are returned unfiltered. *)
Theorem subscribe_final_coin_state
    (filter_coin_states : list CoinState -> Z -> list CoinState)
    (register : list Z -> Z -> option (list CoinState))
    (trusted : bool) (ids : list Z) (syncing : option bool) (min_height : Z)
    (fork_height : option Z) :
  let r := register ids min_height in
  subscribe_to_phs filter_coin_states register trusted ids syncing min_height fork_height =
  subscribe_to_coin_updates filter_coin_states register trusted ids syncing min_height fork_height /\
  (r = None ->
     subscribe_to_phs filter_coin_states register trusted ids syncing min_height fork_height = inr []) /\
  (forall coin_states, r = Some coin_states ->
     (trusted = false -> syncing = Some false -> fork_height = None ->
        subscribe_to_phs filter_coin_states register trusted ids syncing min_height fork_height
          = inl AssertionError) /\
     (forall f, trusted = false -> syncing = Some false -> fork_height = Some f ->
        subscribe_to_phs filter_coin_states register trusted ids syncing min_height fork_height
          = inr (filter_coin_states coin_states f)) /\
     (trusted = true \/ syncing <> Some false ->
        subscribe_to_phs filter_coin_states register trusted ids syncing min_height fork_height
          = inr coin_states)).
Proof.
  intros r. unfold subscribe_to_phs, subscribe_to_coin_updates, final_coin_state. subst r.
  split; [reflexivity|]. split; [intros ->; reflexivity|].
  intros coin_states ->. split; [|split].
  - intros -> -> ->. reflexivity.
  - intros f -> -> ->. reflexivity.
  - intros [-> | Hs]; [reflexivity|].
    destruct trusted; [reflexivity|].
    destruct syncing as [[|]|]; simpl; congruence.
Qed.

(** [C10] counterexample: an untrusted peer, [syncing = False] and no
    [fork_height], but the peer does not answer: the result is the empty
    list, no [AssertionError]. *)
Lemma subscribe_no_response_counterexample :
  subscribe_to_phs (fun cs _ => cs) (fun _ _ => None) false [1] (Some false) 0 None = inr [] /\
  subscribe_to_coin_updates (fun cs _ => cs) (fun _ _ => None) false [1] (Some false) 0 None = inr [].
Proof. split; reflexivity. Qed.

End SubscribeFacts.

(* ------------------------------------------------------------------ *)
(** ** [get_timestamp_for_height] *)

Module TimestampFacts.
Import Types Timestamp.

(** [X1] [get_timestamp_for_height] writes at most the entry of the
    requested height, and only with a timestamp found in a peer request
    cache; once an entry exists it is answered from [height_to_time]
    whatever the caches and the peer say.  A timestamp fetched from the
    peer is returned but not stored, and a failed lookup changes
    nothing. *)
Theorem get_timestamp_for_height_memo (height : Z) (caches : list (gmap Z HeaderBlock))
    (peer_available : bool) (last_tx_block : option HeaderBlock) (h2t h2t' : gmap Z Z)
    (r : Exn + Z) :
  get_timestamp_for_height height caches peer_available last_tx_block h2t = (r, h2t') ->
  (forall k, k <> height -> h2t' !! k = h2t !! k) /\
  match r with
  | inr t =>
      (h2t' !! height = Some t /\
       (h2t = h2t' \/ find_cached_timestamp height caches = Some t) /\
       forall caches' pa' lt', get_timestamp_for_height height caches' pa' lt' h2t' = (inr t, h2t'))
      \/
      (h2t' = h2t /\ h2t !! height = None /\ find_cached_timestamp height caches = None /\
       exists b f, last_tx_block = Some b /\ foliage_transaction_block b = Some f /\ timestamp f = t)
  | inl _ => h2t' = h2t /\ h2t !! height = None /\ find_cached_timestamp height caches = None
  end.
Proof.
  unfold get_timestamp_for_height. intros H.
  destruct (h2t !! height) as [t|] eqn:E1.
  { injection H as <- <-. split; [reflexivity|]. left. split; [exact E1|]. split; [left; reflexivity|].
    intros caches' pa' lt'. rewrite E1. reflexivity. }
  destruct (find_cached_timestamp height caches) as [t|] eqn:E2.
  { injection H as <- <-. split.
    - intros k Hk. apply lookup_insert_ne. congruence.
    - left. split; [apply lookup_insert_eq|]. split; [right; reflexivity|].
      intros caches' pa' lt'. rewrite lookup_insert_eq. reflexivity. }
  destruct peer_available; simpl in H.
  2: { injection H as <- <-. split; [reflexivity|]. auto. }
  destruct last_tx_block as [b|].
  2: { injection H as <- <-. split; [reflexivity|]. auto. }
  destruct (foliage_transaction_block b) as [f|] eqn:E3; injection H as <- <-;
    (split; [reflexivity|]).
  - right. split; [reflexivity|]. split; [first [exact E1 | reflexivity]|]. split; [reflexivity|]. eauto.
  - auto.
Qed.


Lemma get_timestamp_for_height_memo_witness :
  get_timestamp_for_height 5 [∅; {[5 := mkHB 5 10 1 0 (Some (mkFTB 0 0 1234))]}] true None ∅
    = (inr 1234, <[5 := 1234]> ∅) /\
  (forall k, k <> 5 -> (<[5 := 1234]> ∅ : gmap Z Z) !! k = (∅ : gmap Z Z) !! k) /\
  ((((<[5 := 1234]> ∅ : gmap Z Z) !! 5 = Some 1234 /\
     ((∅ : gmap Z Z) = <[5 := 1234]> ∅ \/
      find_cached_timestamp 5 [∅; {[5 := mkHB 5 10 1 0 (Some (mkFTB 0 0 1234))]}] = Some 1234) /\
     forall caches' pa' lt',
       get_timestamp_for_height 5 caches' pa' lt' (<[5 := 1234]> ∅) = (inr 1234, <[5 := 1234]> ∅)))
   \/
   ((<[5 := 1234]> ∅ : gmap Z Z) = ∅ /\ (∅ : gmap Z Z) !! 5 = None /\
    find_cached_timestamp 5 [∅; {[5 := mkHB 5 10 1 0 (Some (mkFTB 0 0 1234))]}] = None /\
    exists b f, (None : option HeaderBlock) = Some b /\ foliage_transaction_block b = Some f /\
                timestamp f = 1234)).
Proof.
  assert (E : get_timestamp_for_height 5 [∅; {[5 := mkHB 5 10 1 0 (Some (mkFTB 0 0 1234))]}] true None ∅
                = (inr 1234, <[5 := 1234]> ∅)) by reflexivity.
  split; [exact E|]. exact (get_timestamp_for_height_memo _ _ _ _ _ _ _ E).
Defined.

End TimestampFacts.

(* ------------------------------------------------------------------ *)
(** ** Re-sending pending transactions *)

Module ResendFacts.
Import Resend.

Lemma success_peers_spec (p : Z) (l : list (Z * Z)) :
  p ∈ map fst (filter (fun e => e.2 = SUCCESS) l) <-> (p, SUCCESS) ∈ l.
Proof.
  induction l as [|[q s] l IH]; simpl.
  - rewrite !elem_of_nil. tauto.
  - rewrite filter_cons. simpl. destruct (decide (s = SUCCESS)) as [->|Hs]; simpl.
    + rewrite !elem_of_cons, IH. split; [intros [->|H]; auto|].
      intros [H|H]; [injection H as ->; auto | auto].
    + rewrite IH, elem_of_cons. split; [auto|].
      intros [H|H]; [injection H as _ E; congruence | exact H].
Qed.

Lemma messages_to_resend_spec (records : list TransactionRecord) (m : Z) (ids : list Z) :
  (m, ids) ∈ _messages_to_resend true false records <->
  exists r, r ∈ records /\ spend_bundle r = Some m /\
            ids = map fst (filter (fun e => e.2 = SUCCESS) (sent_to r)).
Proof.
  unfold _messages_to_resend. simpl. rewrite list_elem_of_omap.
  split.
  - intros [r [Hr Hf]]. exists r. split; [exact Hr|].
    destruct (spend_bundle r); [|discriminate]. injection Hf as <- <-. auto.
  - intros [r [Hr [Hs ->]]]. exists r. split; [exact Hr|]. rewrite Hs. reflexivity.
Qed.

(** [X2] A pending transaction (a record not yet sent, with a spend
    bundle) is sent to a full node, by [on_connect] for a newly connected
    peer and by [_resend_queue] for every connected full node, exactly
    when that node has not already accepted it with status [SUCCESS];
    [on_connect] does so even when it has just closed the peer (old
    protocol version, or untrusted while the local node is synced), and
    it always drops the peer from [synced_peers]. *)
Theorem pending_transactions_sent_unless_accepted (records : list TransactionRecord)
    (version_ok trusted local_node_synced wallet_peers_set : bool)
    (peer_node_id : Z) (synced_peers : gset Z) (full_nodes action_messages : list Z) :
  (forall m,
     SendMessage m ∈ (on_connect true false version_ok trusted local_node_synced wallet_peers_set
                        peer_node_id records synced_peers).1 <->
     exists r, r ∈ records /\ spend_bundle r = Some m /\ (peer_node_id, SUCCESS) ∉ sent_to r) /\
  (peer_node_id ∉ (on_connect true false version_ok trusted local_node_synced wallet_peers_set
                     peer_node_id records synced_peers).2) /\
  (forall p m,
     SendTo p m ∈ _resend_queue false true true records full_nodes action_messages <->
     p ∈ full_nodes /\
     exists r, r ∈ records /\ spend_bundle r = Some m /\ (p, SUCCESS) ∉ sent_to r).
Proof.
  split; [|split].
  - intros m. unfold on_connect. cbn -[omap _messages_to_resend].
    rewrite !elem_of_app, elem_of_cons, elem_of_app, list_elem_of_omap.
    assert (Hv : SendMessage m ∉ (if negb version_ok then [ClosePeer] else [])).
    { destruct version_ok; simpl; rewrite ?elem_of_cons, elem_of_nil; intuition discriminate. }
    assert (Ht : SendMessage m ∉ (if negb trusted && local_node_synced then [ClosePeer] else [])).
    { destruct (negb trusted && local_node_synced); simpl;
        rewrite ?elem_of_cons, elem_of_nil; intuition discriminate. }
    assert (Hw : SendMessage m ∉ (if wallet_peers_set then [WalletPeersOnConnect] else [])).
    { destruct wallet_peers_set; simpl; rewrite ?elem_of_cons, elem_of_nil; intuition discriminate. }
    split.
    + intros [H|[H|[H|[[[m' ids] [Hin Hf]]|H]]]]; try discriminate; try contradiction.
      apply messages_to_resend_spec in Hin as [r [Hr [Hb ->]]].
      case_bool_decide as Hp; [discriminate|]. injection Hf as <-.
      exists r. rewrite <- success_peers_spec. auto.
    + intros [r [Hr [Hb Hp]]]. right. right. right. left.
      exists (m, map fst (filter (fun e => e.2 = SUCCESS) (sent_to r))).
      split; [apply messages_to_resend_spec; eauto|].
      rewrite bool_decide_false; [reflexivity|]. rewrite success_peers_spec. exact Hp.
  - unfold on_connect. simpl. case_bool_decide; set_solver.
  - intros p m. unfold _resend_queue. cbn -[omap _messages_to_resend List.flat_map map].
    rewrite elem_of_app, list_elem_of_In, in_flat_map.
    assert (Ha : SendTo p m ∉ map SendToAll action_messages).
    { rewrite list_elem_of_In, in_map_iff. intros [x [Hx _]]. discriminate. }
    split.
    + intros [[[m' ids] [Hin Hs]]|H]; [|contradiction].
      apply list_elem_of_In in Hin. apply list_elem_of_In in Hs. rewrite list_elem_of_omap in Hs.
      destruct Hs as [q [Hq Hf]]. case_bool_decide as Hp; [discriminate|].
      injection Hf as <- <-. apply messages_to_resend_spec in Hin as [r [Hr [Hb ->]]].
      split; [exact Hq|]. exists r. rewrite <- success_peers_spec. auto.
    + intros [Hq [r [Hr [Hb Hp]]]]. left.
      exists (m, map fst (filter (fun e => e.2 = SUCCESS) (sent_to r))).
      rewrite <- !list_elem_of_In. split; [apply messages_to_resend_spec; eauto|].
      apply list_elem_of_omap. exists p. split; [exact Hq|].
      rewrite bool_decide_false; [reflexivity|]. rewrite success_peers_spec. exact Hp.
Qed.

End ResendFacts.

(* ------------------------------------------------------------------ *)
(** ** Per-peer state *)

Module PeerStateFacts.
Import PeerState.

Ltac bd_cases P :=
  let H := fresh "H" in
  destruct (decide P) as [H|H];
  [rewrite (bool_decide_true P) by exact H | rewrite (bool_decide_false P) by exact H].

(** [X3] The per-peer request cache persists: [get_cache_for_peer]
    creates an empty cache for an unknown peer and afterwards keeps
    returning the stored one.  [on_disconnect] forgets everything the
    node keeps about that peer (its request cache, its membership of
    [synced_peers], its entry in [_node_peaks]), so a later
    [get_cache_for_peer] starts from a fresh cache; the other peers'
    entries are untouched, and [local_node_synced] is cleared exactly
    when the peer is trusted. *)
Theorem peer_state_lifecycle (trusted : bool) (p : Z) (n : Node) :
  (let '(c, n1) := get_cache_for_peer p n in
   untrusted_caches n1 !! p = Some c /\ get_cache_for_peer p n1 = (c, n1) /\
   (untrusted_caches n !! p = None -> c = new_cache)) /\
  (let n' := on_disconnect trusted p n in
   untrusted_caches n' !! p = None /\ (p ∉ synced_peers n') /\ _node_peaks n' !! p = None /\
   (get_cache_for_peer p n').1 = new_cache /\
   local_node_synced n' = (if trusted then false else local_node_synced n) /\
   forall q, q <> p ->
     untrusted_caches n' !! q = untrusted_caches n !! q /\
     (q ∈ synced_peers n' <-> q ∈ synced_peers n) /\
     _node_peaks n' !! q = _node_peaks n !! q).
Proof.
  split.
  - unfold get_cache_for_peer. destruct (untrusted_caches n !! p) as [c|] eqn:E; simpl.
    + rewrite E. split; [reflexivity|split; [reflexivity|discriminate]].
    + rewrite !lookup_insert_eq. auto.
  - unfold on_disconnect. cbn [untrusted_caches synced_peers _node_peaks local_node_synced].
    assert (Hc : (if bool_decide (is_Some (untrusted_caches n !! p))
                  then delete p (untrusted_caches n) else untrusted_caches n) !! p = None).
    { bd_cases (is_Some (untrusted_caches n !! p)); [apply lookup_delete_eq|].
      destruct (untrusted_caches n !! p); [exfalso; apply H; eauto | reflexivity]. }
    split; [exact Hc|]. split; [bd_cases (p ∈ synced_peers n); set_solver|].
    split.
    { bd_cases (is_Some (_node_peaks n !! p)); [apply lookup_delete_eq|].
      destruct (_node_peaks n !! p); [exfalso; apply H; eauto | reflexivity]. }
    split; [unfold get_cache_for_peer; cbn [untrusted_caches]; rewrite Hc; reflexivity|].
    split; [reflexivity|].
    intros q Hq. split; [|split].
    + bd_cases (is_Some (untrusted_caches n !! p)); [apply lookup_delete_ne; congruence | reflexivity].
    + bd_cases (p ∈ synced_peers n); set_solver.
    + bd_cases (is_Some (_node_peaks n !! p)); [apply lookup_delete_ne; congruence | reflexivity].
Qed.

End PeerStateFacts.

(* ------------------------------------------------------------------ *)
(** ** The untrusted weight-proof sync branch of [new_peak_wallet] *)

Module WeightProofSyncFacts.
Import Types WeightProofGate WeightProofSync.

Ltac destruct_goal_match' :=
  match goal with
  | |- context [match ?x with _ => _ end] => destruct x
  end.

Ltac close_peer_last :=
  intros ? He ->; simpl in He |- *;
  first [ reflexivity
        | repeat rewrite elem_of_cons in He; rewrite ?elem_of_nil in He; intuition discriminate ].

(** [X4] In the untrusted branch of [new_peak_wallet] that syncs through
    a weight proof, sync mode is switched on only when the wallet is far
    behind or has no synced peer, and then every way out of the branch
    (a weight proof that does not validate, an [Exception] raised by any
    awaited call, or the normal end) switches it off again: the
    sync-mode changes are exactly [True] then [False], or none.  The peer
    is closed only as the very last step (invalid proof or caught
    exception).  Otherwise the branch goes to the short sync. *)
Theorem untrusted_sync_leaves_sync_mode (ctx : Ctx) (peak_height local_peak_height : Z)
    (WEIGHT_PROOF_RECENT_BLOCKS : Z) (synced no_synced_peers : bool) :
  let effs := untrusted_branch ctx peak_height local_peak_height WEIGHT_PROOF_RECENT_BLOCKS
                synced no_synced_peers in
  let syncing := bool_decide (peak_height - local_peak_height > 200) || no_synced_peers in
  effs = [ShortSync] \/
  (List.filter is_set_sync_mode effs =
     (if syncing then [SetSyncMode true; SetSyncMode false] else []) /\
   forall e, e ∈ effs -> e = ClosePeer -> last effs = Some ClosePeer).
Proof.
  intros effs syncing. subst effs syncing. unfold untrusted_branch.
  destruct (_ && _); [right|left; reflexivity].
  destruct (fetch_result ctx) as [e|r].
  - unfold on_exception. destruct (_ || _); simpl; (split; [reflexivity|close_peer_last]).
  - unfold after_fetch, on_exception. destruct r as [[[v wp] s] b].
    repeat destruct_goal_match'; simpl; (split; [reflexivity|close_peer_last]).
Qed.

(** [X5] That branch calls [long_sync] only after
    [fetch_and_validate_the_weight_proof] answered a valid weight proof
    and [new_weight_proof] recorded it, and from the fork point of that
    proof against the previously synced one (0 when there is none). *)
Theorem untrusted_sync_needs_valid_proof (ctx : Ctx) (peak_height local_peak_height : Z)
    (WEIGHT_PROOF_RECENT_BLOCKS : Z) (synced no_synced_peers : bool) (s : bool) (fork_point : Z) :
  LongSync s fork_point ∈ untrusted_branch ctx peak_height local_peak_height
                            WEIGHT_PROOF_RECENT_BLOCKS synced no_synced_peers ->
  exists wp summaries block_records,
    fetch_result ctx = inr (true, Some wp, summaries, block_records) /\
    new_weight_proof_raises ctx = None /\
    match old_proof ctx with
    | None => fork_point = 0
    | Some op => get_fork_point ctx op wp = inr fork_point
    end.
Proof.
  unfold untrusted_branch. intros H.
  destruct (_ && _).
  2: { rewrite elem_of_cons, elem_of_nil in H. intuition discriminate. }
  apply elem_of_app in H as [H|H].
  { destruct (_ || _); simpl in H; rewrite ?elem_of_cons, elem_of_nil in H; intuition discriminate. }
  assert (Hexc : forall sy, LongSync s fork_point ∉ on_exception sy).
  { intros sy. unfold on_exception. destruct sy; simpl;
      rewrite ?elem_of_cons, elem_of_nil; intuition discriminate. }
  destruct (fetch_result ctx) as [e|[[[v wp] sums] brs]]; [exfalso; exact (Hexc _ H)|].
  unfold after_fetch in H. destruct v; [|exfalso; exact (Hexc _ H)].
  destruct wp as [wp|]; [|exfalso; exact (Hexc _ H)].
  exists wp, sums, brs. split; [reflexivity|].
  destruct (match old_proof ctx with None => inr 0 | Some op => get_fork_point ctx op wp end)
    as [e|fp] eqn:Efp; [exfalso; exact (Hexc _ H)|].
  destruct (new_weight_proof_raises ctx) as [e|] eqn:En.
  { simpl in H. rewrite elem_of_cons in H. destruct H as [H|H]; [discriminate|].
    exfalso; exact (Hexc _ H). }
  split; [reflexivity|].
  assert (fp = fork_point).
  { cbn zeta in H.
    destruct (long_sync_raises ctx), (synced_after ctx) as [sp|];
      repeat match type of H with context [match ?x with _ => _ end] => destruct x end;
      cbn [fst] in H;
      repeat (rewrite ?elem_of_app, ?elem_of_cons, ?elem_of_nil in H);
      repeat match goal with
             | H : _ \/ _ |- _ => destruct H as [H|H]
             end;
      try (injection H as _ <-; reflexivity);
      try discriminate; try contradiction;
      exfalso; eapply Hexc; eassumption. }
  subst fp. destruct (old_proof ctx); [exact Efp|]. injection Efp as <-. reflexivity.
Qed.


Lemma untrusted_sync_needs_valid_proof_witness :
  let ctx := mkCtx (inr (true, Some (mkWP 9 [(300, 50)]), [], [])) None (fun _ _ => inr 0)
                   None None None None in
  LongSync true 0 ∈ untrusted_branch ctx 300 0 100 false false /\
  exists wp summaries block_records,
    fetch_result ctx = inr (true, Some wp, summaries, block_records) /\
    new_weight_proof_raises ctx = None /\
    match old_proof ctx with
    | None => 0 = 0
    | Some op => get_fork_point ctx op wp = inr 0
    end.
Proof.
  intros ctx.
  assert (H : LongSync true 0 ∈ untrusted_branch ctx 300 0 100 false false).
  { apply list_elem_of_In. vm_compute. auto. }
  split; [exact H|]. exact (untrusted_sync_needs_valid_proof ctx 300 0 100 false false true 0 H).
Defined.

End WeightProofSyncFacts.

(* ------------------------------------------------------------------ *)
(** ** [long_sync] *)

Module LongSyncFacts.
Import Types LongSync.

(** Each request is disjoint from [c] and from the requests before it. *)
Fixpoint fresh_reqs (reqs : list (list Z)) (c : list Z) : Prop :=
  match reqs with
  | [] => True
  | q :: rest => (forall x, x ∈ q -> x ∉ c) /\ fresh_reqs rest (c ++ q)
  end.

Lemma fresh_reqs_mono (reqs : list (list Z)) (c c' : list Z) :
  fresh_reqs reqs c' -> (forall x, x ∈ c -> x ∈ c') -> fresh_reqs reqs c.
Proof.
  revert c c'. induction reqs as [|q rest IH]; intros c c' Hf Hs; [exact I|].
  destruct Hf as [Hq Hr]. split.
  - intros x Hx Hc. exact (Hq x Hx (Hs x Hc)).
  - apply (IH _ (c' ++ q) Hr). intros x. rewrite !elem_of_app. intuition.
Qed.

Lemma fresh_reqs_app (a b : list (list Z)) (c : list Z) :
  fresh_reqs a c -> fresh_reqs b (c ++ concat a) -> fresh_reqs (a ++ b) c.
Proof.
  revert c. induction a as [|q rest IH]; intros c Ha Hb; simpl in *.
  - eapply fresh_reqs_mono; [exact Hb|]. intros x. rewrite elem_of_app. intuition.
  - destruct Ha as [Hq Hr]. split; [exact Hq|]. apply IH; [exact Hr|].
    eapply fresh_reqs_mono; [exact Hb|]. intros x. rewrite !elem_of_app. intuition.
Qed.

Lemma fresh_reqs_lookup (reqs : list (list Z)) (c : list Z) (j : nat) (b : list Z) (x : Z) :
  fresh_reqs reqs c -> reqs !! j = Some b -> x ∈ c -> x ∉ b.
Proof.
  revert c j. induction reqs as [|q rest IH]; intros c j Hf Hj Hx; [discriminate|].
  destruct Hf as [Hq Hr]. destruct j as [|j]; simpl in Hj.
  - injection Hj as <-. intros Hb. exact (Hq x Hb Hx).
  - apply (IH (c ++ q) j Hr Hj). rewrite elem_of_app. auto.
Qed.

Lemma fresh_reqs_pairwise (reqs : list (list Z)) (c : list Z) (i j : nat) (a b : list Z) (x : Z) :
  fresh_reqs reqs c -> (i < j)%nat -> reqs !! i = Some a -> reqs !! j = Some b -> x ∈ a -> x ∉ b.
Proof.
  revert c i j. induction reqs as [|q rest IH]; intros c i j Hf Hij Hi Hj Hx; [discriminate|].
  destruct Hf as [Hq Hr]. destruct j as [|j]; [lia|]. simpl in Hj.
  destruct i as [|i]; simpl in Hi.
  - injection Hi as <-. apply (fresh_reqs_lookup rest (c ++ q) j b x Hr Hj).
    rewrite elem_of_app. auto.
  - apply (IH (c ++ q) i j Hr); [lia|exact Hi|exact Hj|exact Hx].
Qed.

Lemma ph_requests_app (a b : list effect) : ph_requests (a ++ b) = ph_requests a ++ ph_requests b.
Proof. induction a as [|e a IH]; [reflexivity|]. destruct e; simpl; rewrite ?IH; reflexivity. Qed.

Section Loops.
Variable ctx : Ctx.
Variable syncing : bool.
Variable min_height : Z.
Variable fork_height : option Z.

Lemma ph_chunk_loop_inv (chunks : list (list Z)) (c : list Z) (effs : list effect)
    (r : Exn + list Z) :
  ph_chunk_loop ctx syncing min_height fork_height chunks c = (effs, r) ->
  Forall (fun e => is_register_coins e = false /\ is_get_puzzle_hashes e = false) effs /\
  fresh_reqs (ph_requests effs) c /\
  forall c', r = inr c' ->
    (forall x, x ∈ c' <-> x ∈ c \/ x ∈ concat chunks) /\
    (forall x, x ∈ c' -> x ∈ c \/ x ∈ concat (ph_requests effs)).
Proof.
  revert c effs r. induction chunks as [|chunk rest IH]; intros c effs r H; simpl in H.
  - injection H as <- <-. split; [constructor|]. split; [exact I|].
    intros c' [= <-]. split; [intros x; simpl; rewrite elem_of_nil; tauto|]. auto.
  - destruct (Subscribe.subscribe_to_phs _ _ _ _ _ _ _) as [e|res].
    + injection H as <- <-. split; [repeat constructor|]. split.
      * simpl. split; [|exact I]. intros x Hx. apply list_elem_of_filter in Hx. tauto.
      * discriminate.
    + destruct (ph_chunk_loop ctx syncing min_height fork_height rest (c ++ chunk)) as [effs' r']
        eqn:E.
      injection H as <- <-. destruct (IH _ _ _ E) as (Hf & Hfr & Hr).
      split; [repeat constructor; auto|]. split.
      * simpl. split.
        -- intros x Hx. apply list_elem_of_filter in Hx. tauto.
        -- eapply fresh_reqs_mono; [exact Hfr|]. intros x. rewrite !elem_of_app.
           intros [Hx|Hx]; [auto|]. apply list_elem_of_filter in Hx. tauto.
      * intros c' Hc'. destruct (Hr c' Hc') as [H1 H2]. split.
        -- intros x. rewrite H1. simpl. rewrite !elem_of_app. tauto.
        -- intros x Hx. simpl. rewrite elem_of_app.
           destruct (H2 x Hx) as [Hx'|Hx']; [|auto].
           apply elem_of_app in Hx' as [Hx'|Hx']; [auto|].
           destruct (decide (x ∈ c)); [auto|]. right; left.
           apply list_elem_of_filter. auto.
Qed.

Lemma ph_chunk_loop_reqs_sub (chunks : list (list Z)) (c : list Z) (effs : list effect)
    (r : Exn + list Z) (x : Z) :
  ph_chunk_loop ctx syncing min_height fork_height chunks c = (effs, r) ->
  x ∈ concat (ph_requests effs) -> x ∈ concat chunks.
Proof.
  revert c effs r. induction chunks as [|chunk rest IHc]; intros c effs r E1 Hx; simpl in E1.
  - injection E1 as <- _. simpl in Hx. apply elem_of_nil in Hx. contradiction.
  - destruct (Subscribe.subscribe_to_phs _ _ _ _ _ _ _) as [e|res].
    + injection E1 as <- _. simpl in Hx. rewrite app_nil_r in Hx.
      apply list_elem_of_filter in Hx. simpl. rewrite elem_of_app. tauto.
    + destruct (ph_chunk_loop ctx syncing min_height fork_height rest (c ++ chunk)) eqn:E.
      injection E1 as <- _. simpl in Hx |- *. rewrite elem_of_app in Hx |- *.
      destruct Hx as [Hx|Hx]; [apply list_elem_of_filter in Hx; tauto|].
      right. exact (IHc _ _ _ E Hx).
Qed.

Lemma ph_loop_inv (fuel n : nat) (all c : list Z) (effs : list effect) (r : Exn + list Z) :
  ph_loop ctx syncing min_height fork_height fuel n all c = Some (effs, r) ->
  Forall (fun e => is_register_coins e = false) effs /\
  fresh_reqs (ph_requests effs) c.
Proof.
  revert n all c effs r. induction fuel as [|fuel IH]; intros n all c effs r H; [discriminate|].
  simpl in H.
  destruct (ph_chunk_loop ctx syncing min_height fork_height (chunks1000 ctx all) c) as [effs1 r1]
    eqn:E1.
  destruct (ph_chunk_loop_inv _ _ _ _ E1) as (Hf1 & Hfr1 & Hr1).
  assert (Hf1' : Forall (fun e => is_register_coins e = false) effs1).
  { eapply Forall_impl; [exact Hf1|]. intros e [? _]. assumption. }
  destruct r1 as [e|c1].
  { injection H as <- <-. auto. }
  destruct (Hr1 c1 eq_refl) as [Hc1 Hc1'].
  assert (Hmono : forall x, x ∈ c ++ concat (ph_requests effs1) -> x ∈ c1).
  { intros x. rewrite elem_of_app. intros [Hx|Hx]; apply Hc1; [auto|].
    right. exact (ph_chunk_loop_reqs_sub _ _ _ _ _ E1 Hx). }
  destruct (existsb _ _).
  - destruct (ph_loop ctx syncing min_height fork_height fuel (S n) _ c1) as [[effs3 r3]|] eqn:E3;
      [|discriminate].
    injection H as <- <-. destruct (IH _ _ _ _ _ E3) as [Hf3 Hfr3].
    rewrite <- app_assoc. split.
    + apply Forall_app; split; [exact Hf1'|]. apply Forall_app; split; [|exact Hf3].
      repeat constructor.
    + rewrite !ph_requests_app. apply fresh_reqs_app; [exact Hfr1|].
      simpl. eapply fresh_reqs_mono; [exact Hfr3|exact Hmono].
  - injection H as <- <-. split.
    + apply Forall_app; split; [exact Hf1'|]. repeat constructor.
    + rewrite ph_requests_app. simpl. rewrite app_nil_r. exact Hfr1.
Qed.

(** With [chunks] covering its argument, the puzzle-hash loop ends only
    when every list it fetched has been checked, and everything checked
    was checked before or requested. *)
Lemma ph_loop_cover (Hchunks : forall l x, x ∈ l -> x ∈ concat (chunks1000 ctx l))
    (fuel n : nat) (all c c' : list Z) (effs : list effect) :
  ph_loop ctx syncing min_height fork_height fuel n all c = Some (effs, inr c') ->
  (forall x, x ∈ c -> x ∈ c') /\
  (forall x, x ∈ all -> x ∈ c') /\
  (forall k x, (n < k <= n + length (List.filter is_get_puzzle_hashes effs))%nat ->
               x ∈ puzzle_hashes_at ctx k -> x ∈ c') /\
  (forall x, x ∈ c' -> x ∈ c \/ x ∈ concat (ph_requests effs)).
Proof.
  revert n all c c' effs. induction fuel as [|fuel IH]; intros n all c c' effs H; [discriminate|].
  simpl in H.
  destruct (ph_chunk_loop ctx syncing min_height fork_height (chunks1000 ctx all) c) as [effs1 r1]
    eqn:E1.
  destruct (ph_chunk_loop_inv _ _ _ _ E1) as (Hf1 & _ & Hr1).
  assert (Hcnt1 : List.filter is_get_puzzle_hashes effs1 = []).
  { clear -Hf1. induction Hf1 as [|e l [_ He] _ IHl]; [reflexivity|]. simpl. rewrite He. exact IHl. }
  destruct r1 as [e|c1]; [discriminate|].
  destruct (Hr1 c1 eq_refl) as [Hc1 Hc1'].
  assert (Hcc1 : forall x, x ∈ c -> x ∈ c1) by (intros x Hx; apply Hc1; auto).
  assert (Hall1 : forall x, x ∈ all -> x ∈ c1) by (intros x Hx; apply Hc1; auto).
  destruct (existsb _ _) eqn:Ex.
  - destruct (ph_loop ctx syncing min_height fork_height fuel (S n) _ c1) as [[effs3 r3]|] eqn:E3;
      [|discriminate].
    injection H as <- ->.
    destruct (IH _ _ _ _ _ E3) as (Hm3 & Hall3 & Hk3 & Hb3).
    rewrite !List.filter_app, Hcnt1. simpl.
    split; [auto|]. split; [auto|]. split.
    + intros k x Hk Hx. destruct (decide (k = S n)) as [->|Hne]; [auto|].
      apply (Hk3 k x); [lia|exact Hx].
    + intros x Hx. rewrite !ph_requests_app, !List.concat_app, !elem_of_app.
      destruct (Hb3 x Hx) as [Hx'|Hx']; [|tauto].
      destruct (Hc1' x Hx'); tauto.
  - injection H as <- <-.
    rewrite !List.filter_app, Hcnt1. simpl.
    split; [exact Hcc1|]. split; [exact Hall1|]. split.
    + intros k x Hk Hx. assert (k = S n) as -> by lia.
      destruct (decide (x ∈ c1)) as [Hin|Hnin]; [exact Hin|].
      exfalso. assert (existsb (fun ph => bool_decide (ph ∉ c1)) (puzzle_hashes_at ctx (S n)) = true)
        as Ht.
      { apply existsb_exists. exists x. split; [apply list_elem_of_In; exact Hx|].
        apply bool_decide_true. exact Hnin. }
      congruence.
    + intros x Hx. rewrite ph_requests_app. simpl. rewrite app_nil_r. auto.
Qed.

End Loops.

Lemma coin_loop_false (ctx : Ctx) (syncing : bool) (min_height : Z) (fork_height : option Z)
    (fuel n : nat) (all checked : list Z) :
  coin_loop ctx syncing min_height fork_height fuel n false all checked = Some ([], inr checked).
Proof. destruct fuel; reflexivity. Qed.

Lemma long_sync_shape (fuel : nat) (ctx : Ctx) (target_height : Z) (syncing : bool)
    (fork_height : option Z) (effs : list effect) (r : Exn + unit) :
  long_sync fuel ctx target_height syncing fork_height = Some (effs, r) ->
  exists effs1 rest r1,
    ph_loop ctx syncing (Z.max 0 (finished_sync_up_to_start ctx - 32)) fork_height fuel O (puzzle_hashes_at ctx O) [] = Some (effs1, r1) /\
    effs = ((if syncing then [ReorgRollback (Z.max 0 (finished_sync_up_to_start ctx - 32)); RollbackRequestCaches (Z.max 0 (finished_sync_up_to_start ctx - 32)); UpdateUI]
             else []) ++ [GetPuzzleHashes]) ++ effs1 ++ rest /\
    Forall (fun e => is_register_coins e = false /\ is_get_puzzle_hashes e = false /\
                     ph_requests [e] = []) rest /\
    (r = inr tt -> exists c', r1 = inr c').
Proof.
  unfold long_sync. intros H.
  destruct (ph_loop _ _ _ _ _ _ _ _) as [[effs1 r1]|] eqn:E; [|discriminate].
  exists effs1.
  destruct r1 as [e|c'].
  - injection H as <- <-. exists [], (inl e). rewrite app_nil_r.
    split; [reflexivity|]. split; [reflexivity|]. split; [constructor|]. discriminate.
  - rewrite coin_loop_false in H. injection H as <- <-.
    eexists _, (inr c'). split; [reflexivity|]. split.
    + rewrite <- !app_assoc. reflexivity.
    + split; [|eauto].
      repeat (apply Forall_app; split);
        repeat match goal with |- context [if ?b then _ else _] => destruct b end;
        repeat constructor.
Qed.

Lemma long_sync_reqs (fuel : nat) (ctx : Ctx) (target_height : Z) (syncing : bool)
    (fork_height : option Z) (effs : list effect) (r : Exn + unit) :
  long_sync fuel ctx target_height syncing fork_height = Some (effs, r) ->
  exists effs1 rest r1,
    ph_loop ctx syncing (Z.max 0 (finished_sync_up_to_start ctx - 32)) fork_height fuel O
      (puzzle_hashes_at ctx O) [] = Some (effs1, r1) /\
    ph_requests effs = ph_requests effs1 /\
    List.filter is_get_puzzle_hashes effs = GetPuzzleHashes :: List.filter is_get_puzzle_hashes effs1 /\
    Forall (fun e => is_register_coins e = false) (effs1 ++ rest) /\
    (r = inr tt -> exists c', r1 = inr c') /\
    Forall (fun e => is_register_coins e = false) effs.
Proof.
  intros H. destruct (long_sync_shape _ _ _ _ _ _ _ H) as (effs1 & rest & r1 & E & -> & Hrest & Hr).
  destruct (ph_loop_inv _ _ _ _ _ _ _ _ _ _ E) as [Hf1 _].
  assert (Hrest' : Forall (fun e => is_register_coins e = false) rest).
  { eapply Forall_impl; [exact Hrest|]. intros e [? _]. assumption. }
  assert (Hpre : Forall (fun e => is_register_coins e = false)
                   ((if syncing then [ReorgRollback (Z.max 0 (finished_sync_up_to_start ctx - 32));
                                      RollbackRequestCaches (Z.max 0 (finished_sync_up_to_start ctx - 32));
                                      UpdateUI] else []) ++ [GetPuzzleHashes])).
  { destruct syncing; repeat constructor. }
  exists effs1, rest, r1. split; [exact E|]. split.
  { rewrite !ph_requests_app.
    assert (Hr0 : ph_requests rest = []).
    { clear -Hrest. induction Hrest as [|e l (_ & _ & He) _ IHl]; [reflexivity|].
      change (e :: l) with ([e] ++ l). rewrite ph_requests_app, He, IHl. reflexivity. }
    rewrite Hr0, !app_nil_r. destruct syncing; reflexivity. }
  split.
  { rewrite !List.filter_app.
    assert (Hg0 : List.filter is_get_puzzle_hashes rest = []).
    { clear -Hrest. induction Hrest as [|e l (_ & He & _) _ IHl]; [reflexivity|].
      simpl. rewrite He. exact IHl. }
    rewrite Hg0, !app_nil_r. destruct syncing; reflexivity. }
  split; [apply Forall_app; auto|]. split; [exact Hr|].
  apply Forall_app; split; [exact Hpre|]. apply Forall_app; auto.
Qed.


(** [X6] [long_sync] never subscribes to coin ids: [continue_while] is
    set to [False] right before the coin-id loop, so whatever
    [get_coin_ids_to_subscribe] answers, no [RegisterForCoinUpdates] is
    sent, on every run that ends (normally or by an exception). *)
Theorem long_sync_never_subscribes_coin_ids (fuel : nat) (ctx : Ctx) (target_height : Z)
    (syncing : bool) (fork_height : option Z) (effs : list effect) (r : Exn + unit) :
  long_sync fuel ctx target_height syncing fork_height = Some (effs, r) ->
  Forall (fun e => is_register_coins e = false) effs.
Proof.
  intros H. destruct (long_sync_reqs _ _ _ _ _ _ _ H) as (_ & _ & _ & _ & _ & _ & _ & _ & Hf).
  exact Hf.
Qed.

Lemma long_sync_never_subscribes_coin_ids_witness :
  let ctx := mkCtx false (fun _ => [1; 2]) (fun _ => [7]) (fun _ _ => Some []) (fun _ _ => Some [])
                   (fun l _ => l) (fun l => [l]) 40 40 in
  exists effs r, long_sync 3 ctx 50 true None = Some (effs, r) /\
                 Forall (fun e => is_register_coins e = false) effs.
Proof.
  intros ctx. eexists _, _.
  assert (E : long_sync 3 ctx 50 true None = Some (_, _)) by (vm_compute; reflexivity).
  split; [exact E|]. exact (long_sync_never_subscribes_coin_ids _ _ _ _ _ _ _ E).
Defined.

(** [X7] No puzzle hash is sent in two [RegisterForPhUpdates] requests
    of one [long_sync]: a request holds only puzzle hashes of its chunk
    that are not yet in [already_checked_ph], and the whole chunk is
    added to that set afterwards, across all rounds of the [while]
    loop. *)
Theorem long_sync_ph_requests_disjoint (fuel : nat) (ctx : Ctx) (target_height : Z)
    (syncing : bool) (fork_height : option Z) (effs : list effect) (r : Exn + unit) :
  long_sync fuel ctx target_height syncing fork_height = Some (effs, r) ->
  forall i j phs1 phs2 x, (i < j)%nat ->
    ph_requests effs !! i = Some phs1 -> ph_requests effs !! j = Some phs2 ->
    x ∈ phs1 -> x ∉ phs2.
Proof.
  intros H i j phs1 phs2 x Hij Hi Hj Hx.
  destruct (long_sync_reqs _ _ _ _ _ _ _ H) as (effs1 & rest & r1 & E & Hreq & _).
  destruct (ph_loop_inv _ _ _ _ _ _ _ _ _ _ E) as [_ Hfr].
  rewrite Hreq in Hi, Hj.
  exact (fresh_reqs_pairwise _ _ _ _ _ _ _ Hfr Hij Hi Hj Hx).
Qed.

Lemma long_sync_ph_requests_disjoint_witness :
  let ctx := mkCtx false (fun n => match n with O => [1; 2] | _ => [1; 2; 3] end) (fun _ => [7])
                   (fun _ _ => Some []) (fun _ _ => Some []) (fun l _ => l) (fun l => [l]) 40 40 in
  exists effs r, long_sync 3 ctx 50 true None = Some (effs, r) /\
    forall i j phs1 phs2 x, (i < j)%nat ->
      ph_requests effs !! i = Some phs1 -> ph_requests effs !! j = Some phs2 ->
      x ∈ phs1 -> x ∉ phs2.
Proof.
  intros ctx. eexists _, _.
  assert (E : long_sync 3 ctx 50 true None = Some (_, _)) by (vm_compute; reflexivity).
  split; [exact E|]. exact (long_sync_ph_requests_disjoint _ _ _ _ _ _ _ E).
Defined.

(** [X8] When [long_sync] returns normally, every puzzle hash answered
    by any call of [get_puzzle_hashes_to_subscribe] (the k-th call, for
    each call made) has been sent in some [RegisterForPhUpdates]
    request, provided [chunks] loses no element of its list. *)
Theorem long_sync_covers_puzzle_hashes (fuel : nat) (ctx : Ctx) (target_height : Z)
    (syncing : bool) (fork_height : option Z) (effs : list effect) :
  (forall l x, x ∈ l -> x ∈ concat (chunks1000 ctx l)) ->
  long_sync fuel ctx target_height syncing fork_height = Some (effs, inr tt) ->
  forall k x, (k < length (List.filter is_get_puzzle_hashes effs))%nat ->
    x ∈ puzzle_hashes_at ctx k -> x ∈ concat (ph_requests effs).
Proof.
  intros Hchunks H k x Hk Hx.
  destruct (long_sync_reqs _ _ _ _ _ _ _ H) as (effs1 & rest & r1 & E & Hreq & Hcnt & _ & Hr & _).
  destruct (Hr eq_refl) as [c' ->].
  destruct (ph_loop_cover _ _ _ _ Hchunks _ _ _ _ _ _ E) as (_ & Hall & Hks & Hb).
  rewrite Hcnt in Hk. simpl in Hk. rewrite Hreq.
  assert (Hc : x ∈ c').
  { destruct k as [|k]; [exact (Hall x Hx)|]. apply (Hks (S k) x); [lia|exact Hx]. }
  destruct (Hb x Hc) as [Hn|Hn]; [apply elem_of_nil in Hn; contradiction|exact Hn].
Qed.

Lemma long_sync_covers_puzzle_hashes_witness :
  let ctx := mkCtx false (fun n => match n with O => [1; 2] | _ => [1; 2; 3] end) (fun _ => [7])
                   (fun _ _ => Some []) (fun _ _ => Some []) (fun l _ => l) (fun l => [l]) 40 40 in
  (forall l x, x ∈ l -> x ∈ concat (chunks1000 ctx l)) /\
  exists effs, long_sync 3 ctx 50 true None = Some (effs, inr tt) /\
    forall k x, (k < length (List.filter is_get_puzzle_hashes effs))%nat ->
      x ∈ puzzle_hashes_at ctx k -> x ∈ concat (ph_requests effs).
Proof.
  intros ctx.
  assert (Hc : forall l x, x ∈ l -> x ∈ concat (chunks1000 ctx l)).
  { intros l x Hx. simpl. rewrite app_nil_r. exact Hx. }
  split; [exact Hc|]. eexists _.
  assert (E : long_sync 3 ctx 50 true None = Some (_, inr tt)) by (vm_compute; reflexivity).
  split; [exact E|]. exact (long_sync_covers_puzzle_hashes _ _ _ _ _ _ Hc E).
Defined.

End LongSyncFacts.

(* ------------------------------------------------------------------ *)
(** ** [fetch_children] and [get_coin_state] *)

Module ChildrenFacts.
Import Types Validator ValidatorFacts Children.

Lemma validate_all_spec (env_for : CoinState -> Env) (states : list CoinState) (st st' : St)
    (r : Exn + list CoinState) :
  validate_all env_for states st = (r, st') ->
  (forall res, r = inr res -> res `sublist_of` states) /\
  (forall k v, states_validated st' !! k = Some v ->
     states_validated st !! k = Some v \/
     (k = coin_state_hash (env_for v) v /\ v ∈ states /\ forall res, r = inr res -> v ∈ res)).
Proof.
  revert st r st'. induction states as [|s rest IH]; intros st r st' H; simpl in H.
  - injection H as <- <-. split.
    + intros res [= <-]. constructor.
    + intros k v Hk. left. exact Hk.
  - apply bind_inv in H as [[e [H1 ->]]|[a [st1 [H1 H2]]]].
    + split; [discriminate|]. intros k v Hk. left.
      destruct (validate_sv (env_for s) s _ _ _ H1) as [E|[E _]]; [rewrite <- E; exact Hk|discriminate].
    + apply bind_inv in H2 as [[e [H2 ->]]|[validated [st2 [H2 H3]]]].
      * destruct (IH _ _ _ H2) as [_ Hsv]. split; [discriminate|].
        intros k v Hk. destruct (Hsv k v Hk) as [Hk1|(-> & Hv & _)].
        -- destruct (validate_sv (env_for s) s _ _ _ H1) as [E|[[= ->] E]];
             [left; rewrite <- E; exact Hk1|].
           rewrite E in Hk1. destruct (decide (coin_state_hash (env_for s) s = k)) as [<-|Hne].
           ++ rewrite lookup_insert_eq in Hk1. injection Hk1 as <-. right.
              split; [reflexivity|]. split; [apply elem_of_cons; auto|discriminate].
           ++ rewrite lookup_insert_ne in Hk1 by exact Hne. left. exact Hk1.
        -- right. split; [reflexivity|]. split; [apply elem_of_cons; auto|discriminate].
      * injection H3 as <- <-. destruct (IH _ _ _ H2) as [Hsub Hsv].
        specialize (Hsub validated eq_refl). split.
        -- intros res [= <-]. destruct a; [apply sublist_skip | apply sublist_cons]; exact Hsub.
        -- intros k v Hk. destruct (Hsv k v Hk) as [Hk1|(-> & Hv & Hres)].
           ++ destruct (validate_sv (env_for s) s _ _ _ H1) as [E|[[= ->] E]];
                [left; rewrite <- E; exact Hk1|].
              rewrite E in Hk1. destruct (decide (coin_state_hash (env_for s) s = k)) as [<-|Hne].
              ** rewrite lookup_insert_eq in Hk1. injection Hk1 as <-. right.
                 split; [reflexivity|]. split; [apply elem_of_cons; auto|].
                 intros res [= <-]. apply elem_of_cons. auto.
              ** rewrite lookup_insert_ne in Hk1 by exact Hne. left. exact Hk1.
           ++ right. split; [reflexivity|]. split; [apply elem_of_cons; auto|].
              intros res [= <-]. specialize (Hres validated eq_refl).
              destruct a; [apply elem_of_cons; auto|exact Hres].
Qed.

Lemma children_cases (trusted : bool) (env_for : CoinState -> Env)
    (coin_states : list CoinState) (st st' : St) (r : Exn + list CoinState) :
  (if trusted then ret coin_states else validate_all env_for coin_states) st = (r, st') ->
  (forall res, r = inr res -> res `sublist_of` coin_states /\ (trusted = true -> res = coin_states)) /\
  (forall k v, states_validated st' !! k = Some v ->
     states_validated st !! k = Some v \/
     (trusted = false /\ k = coin_state_hash (env_for v) v /\ v ∈ coin_states /\
      forall res, r = inr res -> v ∈ res)).
Proof.
  destruct trusted; intros H.
  - injection H as <- <-. split.
    + intros res [= <-]. split; [reflexivity|auto].
    + intros k v Hk. left. exact Hk.
  - destruct (validate_all_spec _ _ _ _ _ H) as [Hsub Hsv]. split.
    + intros res Hr. split; [exact (Hsub res Hr)|discriminate].
    + intros k v Hk. destruct (Hsv k v Hk) as [E|E]; [left; exact E|right; auto].
Qed.

(** [X14] [fetch_children] and [get_coin_state] return, when they
    return, a sublist of the coin states the peer answered: all of
    them from a trusted peer, in their order otherwise.  The only
    entries they add to the peer's [states_validated] are states of
    the answer from an untrusted peer, stored under their hash, and
    when the call returns, each of those is in the returned list. *)
Theorem children_results_from_response (connected trusted : bool) (env_for : CoinState -> Env)
    (response : option (list CoinState)) (st st' : St) (r : Exn + list CoinState) :
  (fetch_children trusted env_for response st = (r, st') \/
   get_coin_state connected trusted env_for response st = (r, st')) ->
  (forall res, r = inr res ->
     exists coin_states, response = Some coin_states /\ res `sublist_of` coin_states /\
       (trusted = true -> res = coin_states)) /\
  (forall k v, states_validated st' !! k = Some v ->
     states_validated st !! k = Some v \/
     (trusted = false /\ k = coin_state_hash (env_for v) v /\
      (exists coin_states, response = Some coin_states /\ v ∈ coin_states) /\
      forall res, r = inr res -> v ∈ res)).
Proof.
  assert (Hsome : forall coin_states,
    (if trusted then ret coin_states else validate_all env_for coin_states) st = (r, st') ->
    (forall res, r = inr res ->
       exists cs0, Some coin_states = Some cs0 /\ res `sublist_of` cs0 /\ (trusted = true -> res = cs0)) /\
    (forall k v, states_validated st' !! k = Some v ->
       states_validated st !! k = Some v \/
       (trusted = false /\ k = coin_state_hash (env_for v) v /\
        (exists cs0, Some coin_states = Some cs0 /\ v ∈ cs0) /\ forall res, r = inr res -> v ∈ res))).
  { intros coin_states H. destruct (children_cases _ _ _ _ _ _ H) as [H1 H2]. split.
    - intros res Hr. exists coin_states. split; [reflexivity|]. exact (H1 res Hr).
    - intros k v Hk. destruct (H2 k v Hk) as [E|(E1 & E2 & E3 & E4)]; [left; exact E|].
      right. split; [exact E1|]. split; [exact E2|]. split; [|exact E4]. eauto. }
  assert (Hraise : forall e, (raise e : M (list CoinState)) st = (r, st') ->
    (forall res, r = inr res -> False) /\ st' = st).
  { intros e H. injection H as <- <-. split; [discriminate|reflexivity]. }
  intros [H|H].
  - unfold fetch_children in H. destruct response as [coin_states|]; [exact (Hsome _ H)|].
    destruct (Hraise _ H) as [Hr ->]. split; [intros res E; destruct (Hr res E)|].
    intros k v Hk. left. exact Hk.
  - unfold get_coin_state in H. destruct connected; simpl in H.
    + destruct response as [coin_states|]; [exact (Hsome _ H)|].
      destruct (Hraise _ H) as [Hr ->]. split; [intros res E; destruct (Hr res E)|].
      intros k v Hk. left. exact Hk.
    + destruct (Hraise _ H) as [Hr ->]. split; [intros res E; destruct (Hr res E)|].
      intros k v Hk. left. exact Hk.
Qed.

Lemma children_results_from_response_witness :
  let good := mkCoinState (mkCoin 0 0 1) None (Some 5) in
  let bad := mkCoinState (mkCoin 1 1 1) None None in
  let env := mkEnv false (fun _ => None) (fun lo _ => Some [mkHB lo 50 105 104 (Some (mkFTB 0 0 0))])
               (fun _ _ _ _ => true) (fun _ _ _ _ => true) (fun _ => true) (fun _ => 0)
               (fun c => parent_coin_info (coin c)) in
  exists r st', fetch_children false (fun _ => env) (Some [bad; good]) (mkSt empty empty []) = (r, st') /\
  (forall res, r = inr res ->
     exists coin_states, Some [bad; good] = Some coin_states /\ res `sublist_of` coin_states /\
       (false = true -> res = coin_states)) /\
  (forall k v, states_validated st' !! k = Some v ->
     states_validated (mkSt empty empty []) !! k = Some v \/
     (false = false /\ k = coin_state_hash env v /\
      (exists coin_states, Some [bad; good] = Some coin_states /\ v ∈ coin_states) /\
      forall res, r = inr res -> v ∈ res)).
Proof.
  intros good bad env. eexists _, _.
  assert (E : fetch_children false (fun _ => env) (Some [bad; good]) (mkSt empty empty []) = (_, _))
    by (vm_compute; reflexivity).
  split; [exact E|].
  exact (children_results_from_response true false (fun _ => env) (Some [bad; good]) _ _ _ (or_introl E)).
Defined.

End ChildrenFacts.
